(** * Lint fixer scripts of qwickapps/react-framework

    A shallow embedding of the three scripts [fix-lint-auto.py],
    [fix-lint-comprehensive.py] and [fix-lint.py]: the Python [re] engine
    (leftmost, greedy, backtracking) for the patterns the scripts use,
    [re.sub], the [str] helpers, and the file loops over a model of the
    file system in a small state/exception monad. *)

From Stdlib Require Import List Ascii String Bool Arith ZArith Lia.
From Stdlib Require Import DecimalString.
Import ListNotations.
Open Scope list_scope.

(** ** Text *)

(** Python [str] values are modelled as lists of characters; a character
    is read as the Latin-1 code point of its 8 bits. *)
Definition text := list ascii.
Definition T (s : string) : text := list_ascii_of_string s.

Definition code (c : ascii) : nat := nat_of_ascii c.
Definition in_range (lo hi : nat) (c : ascii) : bool :=
  (lo <=? code c) && (code c <=? hi).

(** [str.isspace], and the class [\s] of [re] on [str] patterns. *)
Definition is_space (c : ascii) : bool :=
  in_range 9 13 c || in_range 28 32 c || (code c =? 133) || (code c =? 160).

(** The class [\w] of [re] on [str] patterns: alphanumeric or ['_']. *)
Definition is_word (c : ascii) : bool :=
  in_range 48 57 c || in_range 65 90 c || in_range 97 122 c || (code c =? 95)
  || existsb (Nat.eqb (code c)) [170; 178; 179; 181; 185; 186; 188; 189; 190]
  || in_range 192 214 c || in_range 216 246 c || in_range 248 255 c.

(** The class [.] (no [DOTALL] flag): anything but a newline. *)
Definition is_dot (c : ascii) : bool := negb (code c =? 10).

Definition is_nl (c : ascii) : bool := code c =? 10.

(** ** Regular expressions with Python's matching order *)

Inductive regex : Type :=
| REps                             (* the empty pattern *)
| RChar (c : ascii)                (* a literal character *)
| RAny (p : ascii -> bool)         (* one character of a class *)
| RSeq (r1 r2 : regex)
| RStar (p : ascii -> bool)        (* greedy [p*] *)
| ROpt (p : ascii -> bool)         (* greedy [p?] *)
| RBound                           (* [\b] *)
| RNotAhead (r : regex)            (* [(?!r)] *)
| RGroup (n : nat) (r : regex).    (* capturing group [n] *)

Definition RPlus (p : ascii -> bool) : regex := RSeq (RAny p) (RStar p).
Definition RStr (s : text) : regex := fold_right (fun c r => RSeq (RChar c) r) REps s.

(** Captured groups, most recent first. *)
Definition caps := list (nat * text).
Definition mres := (text * text * caps)%type.
Definition cont := text -> text -> caps -> option mres.

(** A position is a zipper: [b] is the consumed text reversed, [a] the rest. *)
Fixpoint star_try (p : ascii -> bool) (k : cont) (b a : text) (cs : caps)
  : option mres :=
  match a with
  | c :: a' =>
      if p c then
        match star_try p k (c :: b) a' cs with
        | Some r => Some r
        | None => k b a cs
        end
      else k b a cs
  | [] => k b a cs
  end.

Definition word_at (o : option ascii) : bool :=
  match o with Some c => is_word c | None => false end.

Fixpoint mt (r : regex) (k : cont) (b a : text) (cs : caps) : option mres :=
  match r with
  | REps => k b a cs
  | RChar c =>
      match a with
      | d :: a' => if Ascii.eqb c d then k (d :: b) a' cs else None
      | [] => None
      end
  | RAny p =>
      match a with
      | d :: a' => if p d then k (d :: b) a' cs else None
      | [] => None
      end
  | RSeq r1 r2 => mt r1 (fun b' a' cs' => mt r2 k b' a' cs') b a cs
  | RStar p => star_try p k b a cs
  | ROpt p =>
      match a with
      | d :: a' =>
          if p d then
            match k (d :: b) a' cs with
            | Some x => Some x
            | None => k b a cs
            end
          else k b a cs
      | [] => k b a cs
      end
  | RBound =>
      if xorb (word_at (hd_error b)) (word_at (hd_error a)) then k b a cs else None
  | RNotAhead r1 =>
      match mt r1 (fun b' a' cs' => Some (b', a', cs')) b a cs with
      | Some _ => None
      | None => k b a cs
      end
  | RGroup n r1 =>
      mt r1 (fun b' a' cs' => k b' a' ((n, firstn (List.length a - List.length a') a) :: cs'))
        b a cs
  end.

Definition kdone : cont := fun b a cs => Some (b, a, cs).

(** A match of [r] starting exactly at the position [(b, a)]. *)
Definition re_match (r : regex) (b a : text) : option mres := mt r kdone b a [].

(** ** [re.sub] *)

Inductive piece := PLit (s : text) | PGrp (n : nat).

Definition group (cs : caps) (n : nat) : text :=
  match find (fun p => Nat.eqb (fst p) n) cs with
  | Some (_, s) => s
  | None => []
  end.

Definition expand (cs : caps) (tpl : list piece) : text :=
  flat_map (fun p => match p with PLit s => s | PGrp n => group cs n end) tpl.

(** Scan positions left to right; at each one take the first match the
    backtracking order finds, emit the expanded template and resume at its
    end; an empty match is replaced and the next character copied. *)
Fixpoint sub_loop (r : regex) (tpl : list piece) (fuel : nat) (b a : text) : text :=
  match fuel with
  | O => a
  | S f =>
      match re_match r b a with
      | Some (b', a', cs) =>
          if List.length a' <? List.length a then expand cs tpl ++ sub_loop r tpl f b' a'
          else expand cs tpl ++
               match a with
               | [] => []
               | c :: t => c :: sub_loop r tpl f (c :: b) t
               end
      | None =>
          match a with
          | [] => []
          | c :: t => c :: sub_loop r tpl f (c :: b) t
          end
      end
  end.

Definition re_sub (r : regex) (tpl : list piece) (s : text) : text :=
  sub_loop r tpl (S (List.length s)) [] s.

Definition RCat (rs : list regex) : regex := fold_right RSeq REps rs.
Definition is_char (c : ascii) : ascii -> bool := fun d => Ascii.eqb c d.
Definition is_sp_tab (c : ascii) : bool := Ascii.eqb c " "%char || Ascii.eqb c "009"%char.
Definition NL : text := ["010"%char].


(** ** [str] helpers *)

Fixpoint starts_with (pre s : text) : bool :=
  match pre, s with
  | [], _ => true
  | c :: pre', d :: s' => Ascii.eqb c d && starts_with pre' s'
  | _ :: _, [] => false
  end.

Definition ends_with (suf s : text) : bool := starts_with (rev suf) (rev s).

(** [needle in hay] *)
Fixpoint contains (needle hay : text) : bool :=
  starts_with needle hay ||
  match hay with [] => false | _ :: hay' => contains needle hay' end.

(** [str.split(sep)] for a one-character separator. *)
Fixpoint split_on (sep : ascii) (s : text) : list text :=
  match s with
  | [] => [[]]
  | c :: s' =>
      if Ascii.eqb c sep then [] :: split_on sep s'
      else match split_on sep s' with
           | w :: ws => (c :: w) :: ws
           | [] => [[c]]
           end
  end.

Definition split_nl (s : text) : list text := split_on "010"%char s.

(** [sep.join(ws)] *)
Fixpoint join_on (sep : ascii) (ws : list text) : text :=
  match ws with
  | [] => []
  | [w] => w
  | w :: ws' => w ++ sep :: join_on sep ws'
  end.

Definition join_nl (ws : list text) : text := join_on "010"%char ws.

Fixpoint lstrip (s : text) : text :=
  match s with c :: s' => if is_space c then lstrip s' else s | [] => [] end.

(** [str.strip()] *)
Definition strip (s : text) : text := rev (lstrip (rev (lstrip s))).

(** [str.split()]: maximal runs of non-space characters. *)
Fixpoint split_ws_aux (s : text) (cur : text) : list text :=
  match s with
  | [] => match cur with [] => [] | _ => [rev cur] end
  | c :: s' =>
      if is_space c then
        match cur with [] => split_ws_aux s' [] | _ => rev cur :: split_ws_aux s' [] end
      else split_ws_aux s' (c :: cur)
  end.
Definition split_ws (s : text) : list text := split_ws_aux s [].

(** [str.lower()] on Latin-1. *)
Definition lower_char (c : ascii) : ascii :=
  if in_range 65 90 c || (in_range 192 222 c && negb (code c =? 215))
  then ascii_of_nat (code c + 32) else c.
Definition lower (s : text) : text := map lower_char s.

(** [int(s)] on a [str]: surrounding white space, a sign, decimal digits
    with single underscores between them; anything else raises. *)
Definition digit_val (c : ascii) : option Z :=
  if in_range 48 57 c then Some (Z.of_nat (code c - 48)) else None.

Fixpoint int_digits (s : text) (acc : Z) (prev_digit : bool) : option Z :=
  match s with
  | [] => if prev_digit then Some acc else None
  | c :: s' =>
      match digit_val c with
      | Some d => int_digits s' (acc * 10 + d) true
      | None =>
          if Ascii.eqb c "_"%char && prev_digit then int_digits s' acc false
          else None
      end
  end.

Definition py_int (s : text) : option Z :=
  match strip s with
  | c :: s' =>
      if Ascii.eqb c "-"%char then option_map Z.opp (int_digits s' 0 false)
      else if Ascii.eqb c "+"%char then int_digits s' 0 false
      else int_digits (c :: s') 0 false
  | [] => None
  end.

(** Truth value of an [Optional] result such as [re.match]'s. *)
Definition is_some {A} (o : option A) : bool := match o with Some _ => true | None => false end.

(** Truth value of a [str]: non-empty. *)
Definition truthy (s : text) : bool := match s with [] => false | _ => true end.

(** [str(n)] *)
Definition show_nat (n : nat) : text := T (NilEmpty.string_of_uint (Nat.to_uint n)).

(** ** Files, events and the state/exception monad *)

Definition path := text.

(** [PurePath.name]: the text after the last ['/']. *)
Definition basename (p : path) : text := last (split_on "/"%char p) [].

Definition join_path (dir rel : path) : path := dir ++ "/"%char :: rel.

Inductive event :=
| EvRead (p : path)              (* the file is opened for reading *)
| EvWrite (p : path) (c : text)  (* the file is opened for writing and [c] written *)
| EvOut (s : text)               (* a line printed to standard output *)
| EvErr (s : text).              (* a line printed to standard error *)

(** [files p = None]: reading [p] fails (missing, permission, decoding).
    [can_write p = false]: opening [p] for writing fails (permission, a
    directory, a read-only file system), before anything is truncated; a
    write that fails after the file has been opened and truncated (a full
    disk) is not modelled. *)
Record world := mkWorld {
  files : path -> option text;
  can_write : path -> bool;
  trace : list event  (* most recent first *)
}.

Inductive exn :=
| OSError (p : path)    (* an I/O failure on [p] *)
| ValueError            (* [int()] on a malformed string *)
| IndexError            (* a list index out of range *)
| KeyError.             (* a missing [dict] key *)

(** The [str] of an exception, as far as the scripts print it. *)
Definition exn_msg (e : exn) : text :=
  match e with
  | OSError p => T "[Errno] " ++ p
  | ValueError => T "invalid literal for int()"
  | IndexError => T "list index out of range"
  | KeyError => T "KeyError"
  end.

Inductive res (A : Type) := Ok (x : A) | Raise (e : exn).
Arguments Ok {A} x.
Arguments Raise {A} e.

Definition M (A : Type) := world -> res A * world.

Definition ret {A} (x : A) : M A := fun w => (Ok x, w).
Definition raise {A} (e : exn) : M A := fun w => (Raise e, w).
Definition bind {A B} (m : M A) (f : A -> M B) : M B :=
  fun w => match m w with
           | (Ok x, w') => f x w'
           | (Raise e, w') => (Raise e, w')
           end.

Notation "x <- m ;; k" := (bind m (fun x => k))
  (at level 100, m at next level, right associativity).
Notation "m ;; k" := (bind m (fun _ => k)) (at level 100, right associativity).

(** [try: m except Exception as e: h(e)] *)
Definition try_except {A} (m : M A) (h : exn -> M A) : M A :=
  fun w => match m w with
           | (Raise e, w') => h e w'
           | r => r
           end.

Definition emit (ev : event) : M unit :=
  fun w => (Ok tt, mkWorld (files w) (can_write w) (ev :: trace w)).

Definition print (s : text) : M unit := emit (EvOut s).
Definition eprint (s : text) : M unit := emit (EvErr s).

Definition read_text (p : path) : M text :=
  emit (EvRead p);;
  fun w => match files w p with
           | Some c => (Ok c, w)
           | None => (Raise (OSError p), w)
           end.

Definition upd (f : path -> option text) (p : path) (c : text) : path -> option text :=
  fun q => if list_eq_dec ascii_dec q p then Some c else f q.

Definition write_text (p : path) (c : text) : M unit :=
  fun w => if can_write w p
           then (Ok tt, mkWorld (upd (files w) p c) (can_write w) (EvWrite p c :: trace w))
           else (Raise (OSError p), w).

(** A Python [dict] with [str] keys, in insertion order; assigning to a
    present key keeps its position. *)
Definition dict (V : Type) := list (text * V).

Fixpoint dict_get {V} (d : dict V) (k : text) : option V :=
  match d with
  | [] => None
  | (k', v) :: d' => if list_eq_dec ascii_dec k k' then Some v else dict_get d' k
  end.

Fixpoint dict_set {V} (d : dict V) (k : text) (v : V) : dict V :=
  match d with
  | [] => [(k, v)]
  | (k', v') :: d' =>
      if list_eq_dec ascii_dec k k' then (k, v) :: d' else (k', v') :: dict_set d' k v
  end.

(** ** The loop shared by the two whole-file scripts

    [for pattern in patterns: for filepath in dir.glob(pattern): if skip:
    continue; if fix_file(filepath): print(...); fixed_count += 1], then the
    total.  The glob expansion is the external collaborator [glob]: for a
    pattern, the matching paths relative to the directory, in order. *)
Section WholeFileLoop.
Variable glob : text -> list path.
Variable dir : path.
Variable excluded : path -> bool.
Variable fix_file : path -> M bool.

Fixpoint loop_files (rels : list path) (count : nat) : M nat :=
  match rels with
  | [] => ret count
  | r :: rels' =>
      let fp := join_path dir r in
      if excluded fp then loop_files rels' count
      else b <- fix_file fp;;
           if b then print (T "Fixed: " ++ r);; loop_files rels' (S count)
           else loop_files rels' count
  end.

Fixpoint loop_patterns (pats : list text) (count : nat) : M nat :=
  match pats with
  | [] => ret count
  | pat :: pats' => c <- loop_files (glob pat) count;; loop_patterns pats' c
  end.

Definition run_patterns (pats : list text) : M unit :=
  c <- loop_patterns pats 0;;
  print (NL ++ T "Total files fixed: " ++ show_nat c).

End WholeFileLoop.

(** ** [fix-lint-auto.py] *)
Module FixLintAuto.

(** Fix 1: [r'\b(\w+)\s*:\s*any\b'] to [r'\1: unknown']. *)
Definition any_re : regex :=
  RCat [RBound; RGroup 1 (RPlus is_word); RStar is_space; RChar ":";
        RStar is_space; RStr (T "any"); RBound].
Definition any_tpl : list piece := [PGrp 1; PLit (T ": unknown")].

(** Fix 3: [r'//\s*@ts-ignore\b'] to ['// @ts-expect-error']. *)
Definition ts_re : regex :=
  RCat [RStr (T "//"); RStar is_space; RStr (T "@ts-ignore"); RBound].
Definition ts_tpl : list piece := [PLit (T "// @ts-expect-error")].

(** Fix 4: the pattern [([ \t]* )(const .* = require\('.*'\);)] (a raw
    string in the source; a space is added before the first closing
    parenthesis here), replaced by group 1, the directive
    [// eslint-disable-next-line @typescript-eslint/no-var-requires],
    a newline, group 1 and group 2. *)
Definition directive : text := T "// eslint-disable-next-line @typescript-eslint/no-var-requires".
Definition req_re : regex :=
  RCat [RGroup 1 (RStar is_sp_tab);
        RGroup 2 (RCat [RStr (T "const "); RStar is_dot; RStr (T " = require('");
                        RStar is_dot; RStr (T "');")])].
Definition req_tpl : list piece := [PGrp 1; PLit directive; PLit NL; PGrp 1; PGrp 2].

Definition fix_any (s : text) : text := re_sub any_re any_tpl s.
Definition fix_ts_ignore (s : text) : text := re_sub ts_re ts_tpl s.
Definition fix_require (s : text) : text := re_sub req_re req_tpl s.

(** The rules of [fix_file], in order. *)
Definition fix_content (content : text) : text :=
  fix_require (fix_ts_ignore (fix_any content)).

(** [fix_file]: read, apply the rules, write only if changed; any exception
    is reported on standard error and the file counts as not fixed. *)
Definition fix_file (fp : path) : M bool :=
  try_except
    (content <- read_text fp;;
     let new := fix_content content in
     if list_eq_dec ascii_dec new content then ret false
     else write_text fp new;; ret true)
    (fun e => eprint (T "Error processing " ++ fp ++ T ": " ++ exn_msg e);; ret false).

Definition patterns : list text :=
  map T ["components/**/*.tsx"; "components/**/*.ts"; "contexts/**/*.tsx";
         "hooks/**/*.ts"; "schemas/**/*.ts"]%string.

(** [if any(x in filepath.name for x in [...])] *)
Definition skip (fp : path) : bool :=
  existsb (fun x => contains x (basename fp)) (map T [".test."; ".stories."; "__tests__"]%string).

(** [main], with [base_dir] the [src] directory. *)
Definition main (glob : text -> list path) (base_dir : path) : M unit :=
  run_patterns glob base_dir skip fix_file patterns.

End FixLintAuto.

(** ** [fix-lint-comprehensive.py] *)
Module FixLintComprehensive.

Definition no_brackets : regex := RNotAhead (RStr (T "[]")).

(** Function parameters: [r'\b(\w+)\s*:\s*any\b(?!\[\])'] to [r'\1: unknown']. *)
Definition param_re : regex :=
  RCat [RBound; RGroup 1 (RPlus is_word); RStar is_space; RChar ":";
        RStar is_space; RStr (T "any"); RBound; no_brackets].
Definition param_tpl : list piece := [PGrp 1; PLit (T ": unknown")].

(** Return types: [r'\):\s*any\b(?!\[\])'] to [r'): unknown']. *)
Definition return_re : regex :=
  RCat [RStr (T "):"); RStar is_space; RStr (T "any"); RBound; no_brackets].
Definition return_tpl : list piece := [PLit (T "): unknown")].

(** Type aliases: [r'(type\s+\w+\s*=\s* )any\b'] (space added) to [r'\1unknown']. *)
Definition alias_re : regex :=
  RCat [RGroup 1 (RCat [RStr (T "type"); RPlus is_space; RPlus is_word;
                        RStar is_space; RChar "="; RStar is_space]);
        RStr (T "any"); RBound].
Definition alias_tpl : list piece := [PGrp 1; PLit (T "unknown")].

(** Generic parameters: [r'<any>'] to ['<unknown>']. *)
Definition generic_re : regex := RStr (T "<any>").
Definition generic_tpl : list piece := [PLit (T "<unknown>")].

(** Properties: [r'(\s+\w+\??\s*:\s* )any\b(?!\[\])'] (space added) to [r'\1unknown']. *)
Definition prop_re : regex :=
  RCat [RGroup 1 (RCat [RPlus is_space; RPlus is_word; ROpt (is_char "?");
                        RStar is_space; RChar ":"; RStar is_space]);
        RStr (T "any"); RBound; no_brackets].
Definition prop_tpl : list piece := [PGrp 1; PLit (T "unknown")].

Definition fix_any_types (content : text) : text :=
  let content := re_sub param_re param_tpl content in
  let content := re_sub return_re return_tpl content in
  let content := re_sub alias_re alias_tpl content in
  let content := re_sub generic_re generic_tpl content in
  re_sub prop_re prop_tpl content.

(** [re.match(r'\s*case\s+', line)] *)
Definition case_re : regex := RCat [RStar is_space; RStr (T "case"); RPlus is_space].

(** [re.match(r'\s*(const|let|var)\s+', line)]: the pattern matches at the
    start of the line exactly when one of its three alternatives does. *)
Definition decl_res : list regex :=
  map (fun kw => RCat [RStar is_space; RStr (T kw); RPlus is_space]) ["const"; "let"; "var"]%string.

Definition is_case (line : text) : bool := is_some (re_match case_re [] line).
Definition is_decl (line : text) : bool :=
  existsb (fun r => is_some (re_match r [] line)) decl_res.

(** [len(line) - len(line.lstrip())] *)
Definition indent_of (line : text) : nat := List.length line - List.length (lstrip line).

Definition ends_case (current : text) : bool :=
  contains (T "break") current || contains (T "return") current.

(** The [while i < len(lines)] loop of [fix_case_declarations] from index
    [i] ([case_loop] on [lines[i:]]), and its inner loop that copies the
    lines of a case block up to the first one containing [break] or
    [return], then closes the block with [indent] spaces and a brace. *)
Fixpoint case_loop (lines : list text) : list text :=
  match lines with
  | [] => []
  | line :: rest =>
      match rest with
      | next :: _ =>
          if is_case line && is_decl next
          then (line ++ T " {") :: case_block (indent_of line) rest
          else line :: case_loop rest
      | [] => [line]
      end
  end
with case_block (indent : nat) (lines : list text) : list text :=
  match lines with
  | [] => []
  | current :: rest =>
      current :: (if ends_case current
                  then (repeat " "%char indent ++ T "}") :: case_loop rest
                  else case_block indent rest)
  end.

Definition fix_case_declarations (content : text) : text :=
  join_nl (case_loop (split_nl content)).

(** [fix_file] applies [fix_any_types] only ([fix_case_declarations] is
    commented out in the source). *)
Definition fix_content (content : text) : text := fix_any_types content.

Definition fix_file (fp : path) : M bool :=
  try_except
    (content <- read_text fp;;
     let new := fix_content content in
     if list_eq_dec ascii_dec new content then ret false
     else write_text fp new;; ret true)
    (fun e => eprint (T "Error fixing " ++ fp ++ T ": " ++ exn_msg e);; ret false).

Definition patterns : list text :=
  map T ["components/**/*.tsx"; "components/**/*.ts"; "contexts/**/*.tsx";
         "hooks/**/*.ts"; "schemas/**/*.ts"; "config/**/*.ts"]%string.

(** [if any(x in str(filepath) for x in [...])] *)
Definition skip (fp : path) : bool :=
  existsb (fun x => contains x fp) (map T ["__tests__"; ".test."; ".stories."]%string).

(** [main], with [src_dir] the [src] directory. *)
Definition main (glob : text -> list path) (src_dir : path) : M unit :=
  run_patterns glob src_dir skip fix_file patterns.

(** [get_lint_errors]: the lint command's standard output and standard error
    are the inputs; [current_file] is [None] until a path line is seen. *)
Definition is_excluded_line (line : text) : bool :=
  contains (T "__tests__") line || contains (T ".test.") line || contains (T ".stories.") line.

Definition is_path_line (line : text) : bool :=
  starts_with (T "/") line && (ends_with (T ".ts") line || ends_with (T ".tsx") line).

Fixpoint parse_lines (lines : list text) (current_file : option text)
  (errors_by_file : dict (list text)) : res (dict (list text)) :=
  match lines with
  | [] => Ok errors_by_file
  | line :: rest =>
      if is_excluded_line line then parse_lines rest current_file errors_by_file
      else if is_path_line line then
        let cf := strip line in
        parse_lines rest (Some cf) (dict_set errors_by_file cf [])
      else
        match current_file with
        | Some cf =>
            if truthy cf && contains (T ":") line && contains (T "error") line then
              match dict_get errors_by_file cf with
              | Some l => parse_lines rest current_file
                            (dict_set errors_by_file cf (l ++ [strip line]))
              | None => Raise KeyError
              end
            else parse_lines rest current_file errors_by_file
        | None => parse_lines rest current_file errors_by_file
        end
  end.

Definition get_lint_errors (stdout stderr : text) : res (dict (list text)) :=
  parse_lines (split_nl stdout ++ split_nl stderr) None [].

End FixLintComprehensive.


(** ** [fix-lint.py] *)
Module FixLint.

Record lint_error := mkErr { e_file : path; e_location : text; e_line : text }.

(** [get_lint_errors]: the lint command's standard output and standard error
    are the inputs. *)
Fixpoint parse_lines (lines : list text) (current_file : option text) : list lint_error :=
  match lines with
  | [] => []
  | line :: rest =>
      if starts_with (T "/Users") line then parse_lines rest (Some (strip line))
      else
        match current_file with
        | Some cf =>
            if truthy cf && contains (T "error") line then
              let parts := split_ws (strip line) in
              if 3 <=? List.length parts
              then mkErr cf (hd [] parts) line :: parse_lines rest current_file
              else parse_lines rest current_file
            else parse_lines rest current_file
        | None => parse_lines rest current_file
        end
  end.

Definition get_lint_errors (stdout stderr : text) : list lint_error :=
  parse_lines (split_nl stdout ++ split_nl stderr) None.

(** Python's [lines[i]] index, negative indices counting from the end. *)
Definition py_index (i : Z) (len : nat) : option nat :=
  if (0 <=? i)%Z then (if (i <? Z.of_nat len)%Z then Some (Z.to_nat i) else None)
  else if (- Z.of_nat len <=? i)%Z then Some (Z.to_nat (Z.of_nat len + i)) else None.

Fixpoint set_nth {A} (l : list A) (i : nat) (x : A) : list A :=
  match l, i with
  | [], _ => []
  | _ :: l', O => x :: l'
  | y :: l', S i' => y :: set_nth l' i' x
  end.

Definition del (r : regex) (s : text) : text := re_sub r [] s.

(** The [if]/[elif] chain on the message: [Some] the new line, [None] when
    no branch applies. *)
Definition fix_line (msg line : text) : option text :=
  if contains (T "'screen' is defined but never used") msg then
    Some (del (RCat [RStr (T "screen,"); RStar is_space])
            (del (RCat [RChar ","; RStar is_space; RStr (T "screen")]) line))
  else if contains (T "'render' is defined but never used") msg then
    Some (del (RCat [RStr (T "render,"); RStar is_space])
            (del (RCat [RChar ","; RStar is_space; RStr (T "render")]) line))
  else if contains (T "'container' is assigned a value but never used") msg then
    Some (re_sub (RStr (T "container")) [PLit (T "_container")] line)
  else if contains (T "'_container' is assigned a value but never used") msg then
    Some (del (RCat [RStr (T "container:"); RStar is_space; RStr (T "_container,");
                     RStar is_space])
            (del (RCat [RChar ","; RStar is_space; RStr (T "container:"); RStar is_space;
                        RStr (T "_container")]) line))
  else None.

(** The reported line number: [int(error['location'].split(':')[0])]. *)
Definition reported_line (e : lint_error) : option Z :=
  py_int (hd [] (split_on ":"%char (e_location e))).

(** The [for error in errors] loop of [fix_unused_vars] on [lines]. *)
Fixpoint unused_loop (errors : list lint_error) (lines : list text) (modified : bool)
  : res (list text * bool) :=
  match errors with
  | [] => Ok (lines, modified)
  | e :: errors' =>
      if contains (T "no-unused-vars") (e_line e) then
        match reported_line e with
        | None => Raise ValueError
        | Some n =>
            let line_num := (n - 1)%Z in
            if (line_num <? Z.of_nat (List.length lines))%Z then
              match py_index line_num (List.length lines) with
              | None => Raise IndexError
              | Some i =>
                  match fix_line (e_line e) (nth i lines []) with
                  | Some new => unused_loop errors' (set_nth lines i new) true
                  | None => unused_loop errors' lines modified
                  end
              end
            else unused_loop errors' lines modified
        end
      else unused_loop errors' lines modified
  end.

Definition fix_unused_vars (file_path : path) (errors : list lint_error) : M bool :=
  content <- read_text file_path;;
  match unused_loop errors (split_nl content) false with
  | Raise e => raise e
  | Ok (lines, modified) =>
      if modified then write_text file_path (join_nl lines);; ret true
      else ret false
  end.

Definition any_patterns : list (regex * list piece * (text -> bool)) :=
  [ (RCat [RChar ":"; RStar is_space; RStr (T "any;")], [PLit (T ": unknown;")],
     fun c => contains (T "mock") (lower c) || contains (T "Mock") c);
    (RCat [RChar ")"; RStar is_space; RStr (T "as"); RStar is_space; RStr (T "any;")],
     [PLit (T ") as unknown;")], fun _ => true);
    (RStr (T "(window as any)"), [PLit (T "(window as Window & typeof globalThis)")],
     fun c => contains (T "window") c) ].

Fixpoint apply_patterns (pats : list (regex * list piece * (text -> bool)))
  (content : text) (modified : bool) : text * bool :=
  match pats with
  | [] => (content, modified)
  | (r, tpl, cond) :: pats' =>
      if cond content then
        let new_content := re_sub r tpl content in
        if list_eq_dec ascii_dec new_content content
        then apply_patterns pats' content modified
        else apply_patterns pats' new_content true
      else apply_patterns pats' content modified
  end.

(** [fix_any_types]: the error list is not consulted. *)
Definition fix_any_types (file_path : path) (errors : list lint_error) : M bool :=
  content <- read_text file_path;;
  let (content', modified) := apply_patterns any_patterns content false in
  if modified then write_text file_path content';; ret true else ret false.

(** [files_with_errors]: errors grouped by file, in first-seen order. *)
Fixpoint group_errors (errors : list lint_error) (d : dict (list lint_error))
  : dict (list lint_error) :=
  match errors with
  | [] => d
  | e :: errors' =>
      let d := match dict_get d (e_file e) with
               | Some _ => d
               | None => dict_set d (e_file e) []
               end in
      let l := match dict_get d (e_file e) with Some l => l | None => [] end in
      group_errors errors' (dict_set d (e_file e) (l ++ [e]))
  end.

Fixpoint fix_groups (groups : dict (list lint_error)) (fixed_count : nat) : M nat :=
  match groups with
  | [] => ret fixed_count
  | (file_path, file_errors) :: groups' =>
      u <- fix_unused_vars file_path file_errors;;
      c1 <- (if u then print (T "Fixed unused vars in " ++ basename file_path);;
                       ret (S fixed_count)
             else ret fixed_count);;
      a <- fix_any_types file_path file_errors;;
      c2 <- (if a then print (T "Fixed any types in " ++ basename file_path);; ret (S c1)
             else ret c1);;
      fix_groups groups' c2
  end.

(** [main], with the lint command's output as input; its result is the
    exit status passed to [sys.exit]. *)
Definition main (stdout stderr : text) : M nat :=
  print (T "Analyzing lint errors...");;
  let errors := get_lint_errors stdout stderr in
  match errors with
  | [] => print (T "No errors found!");; ret 0
  | _ :: _ =>
      print (T "Found " ++ show_nat (List.length errors) ++ T " errors");;
      fixed_count <- fix_groups (group_errors errors []) 0;;
      print (NL ++ T "Fixed issues in " ++ show_nat fixed_count ++ T " files");;
      ret 0
  end.

End FixLint.

(** ** Concrete inputs *)

(** A world whose readable files are those of [l], all writable. *)
Definition world_of (l : dict text) : world := mkWorld (dict_get l) (fun _ => true) [].

Definition written_paths (ev : list event) : list path :=
  flat_map (fun e => match e with EvWrite p _ => [p] | _ => [] end) ev.

Definition demo_lint_out (file : text) : text :=
  file ++ NL ++
  T "  1:10  error  'render' is defined but never used  @typescript-eslint/no-unused-vars".

Definition demo_source : text :=
  T "import { render, screen } from 'x';" ++ NL ++ T "const y = (z) as any;".

Definition demo_a : path := T "/Users/u/a.tsx".
Definition demo_b : path := T "/Users/u/b.tsx".
Definition demo_test : path := T "/Users/u/a.test.tsx".

Definition demo_two_files_out : text :=
  demo_lint_out demo_a ++ NL ++ demo_b ++ NL ++
  T "  2:5  error  Unexpected any  @typescript-eslint/no-explicit-any".

Definition f_input : text := T "function f(x: any): any { return x as any; }".
Definition require_line : text := T "const x = require('a');".

(** A directory listing in which one pattern matches the file [a.tsx]. *)
Definition demo_glob (pat : text) : list path :=
  if list_eq_dec ascii_dec pat (T "components/**/*.tsx") then [T "a.tsx"; T "a.test.tsx"]
  else [].

Definition demo_dir : path := T "/p/src".

(** ** Vocabulary of the properties *)

(** A template of literal text only, all of whose characters satisfy [P]. *)
Definition lit_only (P : ascii -> Prop) (tpl : list piece) : Prop :=
  Forall (fun pc => match pc with PLit s => Forall P s | PGrp _ => False end) tpl.

(** A character other than [sep]. *)
Definition not_sep (sep x : ascii) : Prop := Ascii.eqb x sep = false.

(** The records [fix_unused_vars] acts on. *)
Definition matched (e : FixLint.lint_error) : bool :=
  contains (T "no-unused-vars") (FixLint.e_line e).

(** Every matched record reports a 1-based line number within [len] lines. *)
Definition lines_in_range (errors : list FixLint.lint_error) (len : nat) : Prop :=
  forall e, In e errors -> matched e = true ->
  exists n, FixLint.reported_line e = Some n /\ (1 <= n <= Z.of_nat len)%Z.

(** No matched record reports the (0-based) line [i]. *)
Definition unreported (errors : list FixLint.lint_error) (i : nat) : Prop :=
  forall e, In e errors -> matched e = true ->
  FixLint.reported_line e <> Some (Z.of_nat i + 1)%Z.

(** The events [ev] open [p] for reading or writing. *)
Definition touches (p : path) (ev : list event) : Prop :=
  In (EvRead p) ev \/ exists c, In (EvWrite p c) ev.

(** The state of a whole-file run started in [w0], now in [w] after the
    events [ev]: each file written once, with its rewritten text, only when
    that differs from what was read, and reported only if written. *)
Definition write_inv (F : text -> text) (dir : path) (w0 w : world) (ev : list event) : Prop :=
  trace w = ev ++ trace w0 /\ can_write w = can_write w0 /\
  NoDup (written_paths ev) /\
  (forall p c, In (EvWrite p c) ev ->
     exists c0, files w0 p = Some c0 /\ c = F c0 /\ c <> c0) /\
  (forall r, In (EvOut (T "Fixed: " ++ r)) ev ->
     exists c, In (EvWrite (join_path dir r) c) ev) /\
  (forall p, ~ In p (written_paths ev) -> files w p = files w0 p).

(** The cursor always names a key of the dictionary, so the comprehensive
    parser never raises [KeyError]. *)
Definition cursor_ok (cur : option text) (d : dict (list text)) : Prop :=
  forall cf, cur = Some cf -> dict_get d cf <> None.

(** The longest prefix of characters satisfying [p], and the rest. *)
Fixpoint span (p : ascii -> bool) (s : text) : text * text :=
  match s with
  | c :: s' => if p c then let (u, r) := span p s' in (c :: u, r) else ([], s)
  | [] => ([], [])
  end.

(** The match of [//\s*@ts-ignore\b] at the start of [a], if any: the
    matched text and the rest. *)
Definition ts_split (a : text) : option (text * text) :=
  if starts_with (T "//") a then
    let (u, r2) := span is_space (skipn 2 a) in
    if starts_with (T "@ts-ignore") r2 && negb (word_at (hd_error (skipn 10 r2)))
    then Some (T "//" ++ u ++ T "@ts-ignore", skipn 10 r2) else None
  else None.

(** Positions of [w], followed by [rest], where [r] does not match. *)
Fixpoint no_match_along (r : regex) (b w rest : text) : Prop :=
  match w with
  | [] => True
  | c :: w' => re_match r b (c :: w' ++ rest) = None /\ no_match_along r (c :: b) w' rest
  end.

(** A pattern [r] that only matches where [s] occurs. *)
Definition needs (s : text) (r : regex) : Prop :=
  forall k b a cs res, mt r k b a cs = Some res -> contains s a = true.

(** A key of the comprehensive parser's result that comes from [S]: the
    stripped text of a path line of [S] not naming a test or story file. *)
Definition comp_key_from (S : list text) (k : text) : Prop :=
  exists L, In L S /\ FixLintComprehensive.is_excluded_line L = false /\
            FixLintComprehensive.is_path_line L = true /\ strip L = k.

(** An entry that comes from [S]: the stripped text of a line of [S] that is
    neither excluded nor a path line and contains [:] and [error]. *)
Definition comp_entry_from (S : list text) (x : text) : Prop :=
  exists L, In L S /\ FixLintComprehensive.is_excluded_line L = false /\
            FixLintComprehensive.is_path_line L = false /\
            contains (T ":") L = true /\ contains (T "error") L = true /\ strip L = x.

(** Every key and every entry of [d] come from [S]. *)
Definition comp_dict_from (S : list text) (d : dict (list text)) : Prop :=
  forall k v, dict_get d k = Some v -> comp_key_from S k /\ Forall (comp_entry_from S) v.

(** A record of [fix-lint.py]'s parser that comes from [S]: its file is the
    stripped text of a line of [S] starting with [/Users]; its line is a line
    of [S] not starting with [/Users] and containing [error], with at least
    three white-space separated fields, the first being its location. *)
Definition fixlint_record_from (S : list text) (e : FixLint.lint_error) : Prop :=
  (exists P, In P S /\ starts_with (T "/Users") P = true /\ FixLint.e_file e = strip P) /\
  In (FixLint.e_line e) S /\ starts_with (T "/Users") (FixLint.e_line e) = false /\
  contains (T "error") (FixLint.e_line e) = true /\
  3 <= List.length (split_ws (strip (FixLint.e_line e))) /\
  FixLint.e_location e = hd [] (split_ws (strip (FixLint.e_line e))).

(** The record [e] is about the file [f]. *)
Definition same_file (f : path) (e : FixLint.lint_error) : bool :=
  if list_eq_dec ascii_dec (FixLint.e_file e) f then true else false.

Definition demo_zero_err : FixLint.lint_error :=
  FixLint.mkErr demo_a (T "0:9")
    (T "  0:9  error  'container' is assigned a value but never used  no-unused-vars").

(** The lines printed on standard output in a trace segment. *)
Definition out_lines (ev : list event) : list text :=
  flat_map (fun e => match e with EvOut s => [s] | _ => [] end) ev.

(** The two messages [fix-lint.py]'s [main] prints for a fixed file. *)
Definition fixlint_fixed_msg (s : text) : Prop :=
  exists p, s = T "Fixed unused vars in " ++ basename p \/ s = T "Fixed any types in " ++ basename p.

(** * Properties *)

(** ** Concrete runs *)

(** C2: [fix-lint-auto.py] narrows the array type [x: any[]] to
    [x: unknown[]] (its pattern has no [(?!\[\])] guard), while the
    comprehensive fixer leaves it unchanged; both narrow [x: any]. *)
Theorem auto_narrows_array_of_any :
  FixLintAuto.fix_content (T "x: any[]") = T "x: unknown[]" /\
  FixLintComprehensive.fix_content (T "x: any[]") = T "x: any[]" /\
  FixLintAuto.fix_content (T "x: any") = T "x: unknown" /\
  FixLintComprehensive.fix_content (T "x: any") = T "x: unknown".
Proof. vm_compute. repeat split. Qed.

(** C3 (counterexample): neither whole-file rewrite turns [f_input] into
    [function f(x: unknown): unknown { return x as unknown; }]. *)
Lemma f_input_not_fully_narrowed :
  FixLintComprehensive.fix_content f_input
    <> T "function f(x: unknown): unknown { return x as unknown; }" /\
  FixLintAuto.fix_content f_input
    <> T "function f(x: unknown): unknown { return x as unknown; }".
Proof. vm_compute. split; discriminate. Qed.

(** C3: the comprehensive fixer narrows the parameter and the return type and
    leaves the [as any] assertion; [fix-lint-auto.py] narrows the parameter
    only. *)
Theorem f_input_rewrites :
  FixLintComprehensive.fix_content f_input
    = T "function f(x: unknown): unknown { return x as any; }" /\
  FixLintAuto.fix_content f_input
    = T "function f(x: unknown): any { return x as any; }".
Proof. vm_compute. split; reflexivity. Qed.

(** C1 (counterexample): running the [fix-lint-auto.py] rewrite twice on a
    [require] line inserts the disable directive twice. *)
Lemma require_rewrite_twice_duplicates :
  FixLintAuto.fix_content (FixLintAuto.fix_content require_line)
    = FixLintAuto.directive ++ NL ++ FixLintAuto.directive ++ NL ++ require_line /\
  FixLintAuto.fix_content (FixLintAuto.fix_content require_line)
    <> FixLintAuto.fix_content require_line.
Proof. vm_compute. split; [reflexivity | discriminate]. Qed.


(** C4 (counterexample): in [fix-lint.py] a file is written by
    [fix_unused_vars] and again by [fix_any_types] in one run. *)
Lemma fixlint_writes_file_twice :
  written_paths (trace (snd (FixLint.main (demo_lint_out demo_a) []
                                 (world_of [(demo_a, demo_source)]))))
    = [demo_a; demo_a].
Proof. vm_compute. reflexivity. Qed.

(** C5 (counterexample): [fix-lint.py] applies no test-file exclusion and
    writes [a.test.tsx]. *)
Lemma fixlint_writes_test_file :
  In demo_test
    (written_paths (trace (snd (FixLint.main (demo_lint_out demo_test) []
                                   (world_of [(demo_test, demo_source)]))))).
Proof. vm_compute. left. reflexivity. Qed.

(** C6: in [fix-lint.py] an unreadable file aborts the run: the exception
    propagates out of [main] and the next file is never read nor written. *)
Theorem fixlint_unreadable_file_aborts :
  let r := FixLint.main demo_two_files_out [] (world_of [(demo_b, demo_source)]) in
  fst r = Raise (OSError demo_a) /\
  ~ In (EvRead demo_b) (trace (snd r)) /\
  written_paths (trace (snd r)) = [].
Proof. vm_compute. split; [reflexivity | split; [intros [H | [H | [H | H]]]; try discriminate; contradiction | reflexivity]]. Qed.

(** ** [fix-lint.py] with no lint errors *)

(** C9: when the parser finds no error record, [main] prints that no errors
    were found, touches no file and returns the status 0. *)
Theorem fixlint_main_no_errors (stdout stderr : text) (w : world)
  (H : FixLint.get_lint_errors stdout stderr = []) :
  FixLint.main stdout stderr w =
  (Ok 0, mkWorld (files w) (can_write w)
           (EvOut (T "No errors found!") :: EvOut (T "Analyzing lint errors...") :: trace w)).
Proof.
  unfold FixLint.main, bind, print, emit, ret.
  cbn -[FixLint.get_lint_errors]. rewrite H. reflexivity.
Qed.

Lemma fixlint_main_no_errors_witness :
  FixLint.get_lint_errors (T "> lint" ++ NL ++ T "All files pass.") [] = [] /\
  FixLint.main (T "> lint" ++ NL ++ T "All files pass.") [] (world_of []) =
  (Ok 0, mkWorld (files (world_of [])) (can_write (world_of []))
           (EvOut (T "No errors found!") :: EvOut (T "Analyzing lint errors...")
              :: trace (world_of []))).
Proof.
  split; [vm_compute; reflexivity |].
  apply fixlint_main_no_errors. vm_compute. reflexivity.
Defined.

(** ** The matcher only moves forward *)

Lemma star_try_from (p : ascii -> bool) (k : cont) :
  forall a b cs r, star_try p k b a cs = Some r ->
  exists b1 a1 cs1 u, k b1 a1 cs1 = Some r /\ a = u ++ a1.
Proof.
  induction a as [| c a IH]; intros b cs r H; simpl in H.
  - exists b, [], cs, []. auto.
  - destruct (p c).
    + destruct (star_try p k (c :: b) a cs) eqn:E.
      * inversion H; subst.
        destruct (IH _ _ _ E) as (b1 & a1 & cs1 & u & Hk & ->).
        exists b1, a1, cs1, (c :: u). auto.
      * exists b, (c :: a), cs, []. auto.
    + exists b, (c :: a), cs, []. auto.
Qed.

Lemma mt_from :
  forall r k b a cs res, mt r k b a cs = Some res ->
  exists b1 a1 cs1 u, k b1 a1 cs1 = Some res /\ a = u ++ a1.
Proof.
  induction r as [| c | p | r1 IH1 r2 IH2 | p | p | | r1 IH1 | n r1 IH1];
    intros k b a cs res H; simpl in H.
  - exists b, a, cs, []. auto.
  - destruct a as [| d a]; [discriminate |].
    destruct (Ascii.eqb c d); [| discriminate].
    exists (d :: b), a, cs, [d]. auto.
  - destruct a as [| d a]; [discriminate |].
    destruct (p d); [| discriminate].
    exists (d :: b), a, cs, [d]. auto.
  - destruct (IH1 _ _ _ _ _ H) as (b1 & a1 & cs1 & u1 & H1 & ->).
    destruct (IH2 _ _ _ _ _ H1) as (b2 & a2 & cs2 & u2 & H2 & ->).
    exists b2, a2, cs2, (u1 ++ u2). rewrite app_assoc. auto.
  - eapply star_try_from. exact H.
  - destruct a as [| d a].
    + exists b, [], cs, []. auto.
    + destruct (p d).
      * destruct (k (d :: b) a cs) eqn:E.
        -- inversion H; subst. exists (d :: b), a, cs, [d]. auto.
        -- exists b, (d :: a), cs, []. auto.
      * exists b, (d :: a), cs, []. auto.
  - destruct (xorb _ _); [| discriminate]. exists b, a, cs, []. auto.
  - destruct (mt r1 _ b a cs); [discriminate |]. exists b, a, cs, []. auto.
  - destruct (IH1 _ _ _ _ _ H) as (b1 & a1 & cs1 & u1 & H1 & ->).
    eexists b1, a1, _, u1. split; [exact H1 | reflexivity].
Qed.

Lemma re_match_suffix (r : regex) (b a b' a' : text) (cs : caps) :
  re_match r b a = Some (b', a', cs) -> exists u, a = u ++ a'.
Proof.
  unfold re_match. intros H.
  destruct (mt_from _ _ _ _ _ _ H) as (b1 & a1 & cs1 & u & Hk & ->).
  unfold kdone in Hk. inversion Hk; subst. eauto.
Qed.

Lemma expand_lit_only (P : ascii -> Prop) (tpl : list piece) (cs : caps) :
  lit_only P tpl -> Forall P (expand cs tpl).
Proof.
  unfold expand. induction 1 as [| pc tpl Hpc _ IH]; simpl; [constructor |].
  apply Forall_app. split; [| exact IH]. destruct pc; [exact Hpc | contradiction].
Qed.

Lemma sub_loop_chars (P : ascii -> Prop) (r : regex) (tpl : list piece) :
  lit_only P tpl ->
  forall f b a, Forall P a -> Forall P (sub_loop r tpl f b a).
Proof.
  intros Htpl f. induction f as [| f IH]; intros b a Ha; simpl; [exact Ha |].
  assert (Hstep : Forall P match a with
                           | [] => []
                           | c :: t => c :: sub_loop r tpl f (c :: b) t
                           end).
  { destruct a as [| c t]; [constructor |].
    inversion Ha; subst. constructor; [assumption | apply IH; assumption]. }
  destruct (re_match r b a) as [[[b' a'] cs] |] eqn:Em; [| exact Hstep].
  destruct (List.length a' <? List.length a);
    apply Forall_app; (split; [apply expand_lit_only; exact Htpl |]); [| exact Hstep].
  apply IH. destruct (re_match_suffix _ _ _ _ _ _ Em) as [u ->].
  apply Forall_app in Ha as [_ Ha']. exact Ha'.
Qed.

(** ** Lines: [split] and [join] *)

Section SplitJoin.
Variable sep : ascii.

Lemma split_on_no_sep (w : text) : Forall (not_sep sep) w -> split_on sep w = [w].
Proof.
  induction 1 as [| x w Hx _ IH]; [reflexivity |].
  simpl. unfold not_sep in Hx. rewrite Hx, IH. reflexivity.
Qed.

Lemma split_on_app_sep (w rest : text) :
  Forall (not_sep sep) w -> split_on sep (w ++ sep :: rest) = w :: split_on sep rest.
Proof.
  induction 1 as [| x w Hx _ IH]; simpl.
  - rewrite Ascii.eqb_refl. reflexivity.
  - unfold not_sep in Hx. rewrite Hx, IH. reflexivity.
Qed.

Lemma split_join (ws : list text) :
  ws <> [] -> Forall (Forall (not_sep sep)) ws -> split_on sep (join_on sep ws) = ws.
Proof.
  induction ws as [| w ws IH]; intros Hne Hws; [congruence |].
  inversion Hws as [| ? ? Hw Hws']; subst.
  destruct ws as [| w' ws'].
  - simpl. apply split_on_no_sep. exact Hw.
  - change (join_on sep (w :: w' :: ws')) with (w ++ sep :: join_on sep (w' :: ws')).
    rewrite split_on_app_sep by exact Hw. rewrite IH; [reflexivity | discriminate | exact Hws'].
Qed.

Lemma split_on_not_nil (s : text) : split_on sep s <> [].
Proof.
  destruct s as [| c s]; simpl; [discriminate |].
  destruct (Ascii.eqb c sep); [discriminate |].
  destruct (split_on sep s); discriminate.
Qed.

Lemma split_on_pieces (s : text) : Forall (Forall (not_sep sep)) (split_on sep s).
Proof.
  induction s as [| c s IH]; simpl; [repeat constructor |].
  destruct (Ascii.eqb c sep) eqn:E; [constructor; [constructor | exact IH] |].
  destruct (split_on sep s) as [| w ws] eqn:Es.
  - repeat constructor. exact E.
  - inversion IH; subst. constructor; [constructor; assumption | assumption].
Qed.

End SplitJoin.

Lemma length_set_nth {A} (l : list A) (i : nat) (x : A) :
  List.length (FixLint.set_nth l i x) = List.length l.
Proof.
  revert i. induction l as [| y l IH]; intros [| i]; simpl; auto.
Qed.

Lemma nth_error_set_nth_other {A} (l : list A) (i j : nat) (x : A) :
  i <> j -> nth_error (FixLint.set_nth l i x) j = nth_error l j.
Proof.
  revert i j. induction l as [| y l IH]; intros [| i] [| j] Hij; simpl; auto; congruence.
Qed.

Lemma Forall_set_nth {A} (P : A -> Prop) (l : list A) (i : nat) (x : A) :
  Forall P l -> P x -> Forall P (FixLint.set_nth l i x).
Proof.
  intros Hl Hx. revert i. induction Hl as [| y l Hy Hl IH]; intros [| i]; simpl;
    try constructor; auto.
Qed.

Lemma Forall_nth_default {A} (P : A -> Prop) (l : list A) (i : nat) (d : A) :
  Forall P l -> P d -> P (nth i l d).
Proof.
  intros Hl Hd. revert i. induction Hl as [| y l Hy _ IH]; intros [| i]; simpl; auto.
Qed.

Lemma re_sub_chars (P : ascii -> Prop) (r : regex) (tpl : list piece) (s : text) :
  lit_only P tpl -> Forall P s -> Forall P (re_sub r tpl s).
Proof. intros Htpl Hs. apply sub_loop_chars; assumption. Qed.

Lemma fix_line_no_nl (msg line new : text) :
  FixLint.fix_line msg line = Some new ->
  Forall (not_sep "010"%char) line -> Forall (not_sep "010"%char) new.
Proof.
  assert (H0 : lit_only (not_sep "010"%char) []) by constructor.
  assert (H1 : lit_only (not_sep "010"%char) [PLit (T "_container")])
    by (repeat constructor).
  unfold FixLint.fix_line, FixLint.del. intros H Hl.
  repeat match type of H with
  | (if ?c then _ else _) = _ => destruct c
  end; try discriminate; injection H as <-;
  repeat (apply re_sub_chars; [assumption |]); exact Hl.
Qed.

(** ** [fix_unused_vars] changes only the reported lines *)

Section UnusedVars.
Import FixLint.


Lemma unused_loop_frame (errors : list lint_error) :
  forall lines modified, lines_in_range errors (List.length lines) ->
  exists lines' m,
    unused_loop errors lines modified = Ok (lines', m) /\
    List.length lines' = List.length lines /\
    (forall i, unreported errors i -> nth_error lines' i = nth_error lines i) /\
    (Forall (Forall (not_sep "010"%char)) lines ->
     Forall (Forall (not_sep "010"%char)) lines').
Proof.
  induction errors as [| e errors IH]; intros lines modified Hr.
  - exists lines, modified. simpl. repeat split; auto.
  - assert (Hr' : lines_in_range errors (List.length lines))
      by (intros e' He'; apply Hr; right; exact He').
    cbn [unused_loop]. unfold matched in Hr.
    destruct (contains (T "no-unused-vars") (e_line e)) eqn:Hc.
    + destruct (Hr e (or_introl eq_refl) Hc) as (n & Hn & Hlo & Hhi).
      rewrite Hn.
      assert (Hlt : (n - 1 <? Z.of_nat (List.length lines))%Z = true) by (apply Z.ltb_lt; lia).
      rewrite Hlt. unfold py_index.
      assert (H0 : (0 <=? n - 1)%Z = true) by (apply Z.leb_le; lia).
      rewrite H0, Hlt.
      set (i := Z.to_nat (n - 1)).
      destruct (fix_line (e_line e) (nth i lines [])) as [new |] eqn:Ef.
      * assert (Hr'' : lines_in_range errors (List.length (set_nth lines i new)))
          by (rewrite length_set_nth; exact Hr').
        destruct (IH _ true Hr'') as (lines' & m & Hrun & Hlen & Hnth & Hnl).
        exists lines', m. split; [exact Hrun |]. split.
        { rewrite Hlen. apply length_set_nth. }
        split.
        { intros j Hj. rewrite Hnth.
          - apply nth_error_set_nth_other. intros Hij.
            apply (Hj e (or_introl eq_refl) Hc). rewrite Hn. f_equal.
            subst i. rewrite <- Hij. rewrite Z2Nat.id by lia. lia.
          - intros e' He'. apply Hj. right. exact He'. }
        { intros Hall. apply Hnl. apply Forall_set_nth; [exact Hall |].
          eapply fix_line_no_nl; [exact Ef |].
          apply Forall_nth_default; [exact Hall | constructor]. }
      * destruct (IH lines modified Hr') as (lines' & m & Hrun & Hlen & Hnth & Hnl).
        exists lines', m. repeat split; auto.
        intros j Hj. apply Hnth. intros e' He'. apply Hj. right. exact He'.
    + destruct (IH lines modified Hr') as (lines' & m & Hrun & Hlen & Hnth & Hnl).
      exists lines', m. repeat split; auto.
      intros j Hj. apply Hnth. intros e' He'. apply Hj. right. exact He'.
Qed.

End UnusedVars.

(** C10: when every matched [no-unused-vars] record reports a 1-based line
    number inside the file, [fix_unused_vars] either only reads the file, or
    writes it once with text whose lines are as many as before and equal to
    the original ones at every index no matched record reports. *)
Theorem fix_unused_vars_frame (w : world) (fp : path)
  (errors : list FixLint.lint_error) (content : text)
  (Hread : files w fp = Some content)
  (Hrange : lines_in_range errors (List.length (split_nl content))) :
  let w' := snd (FixLint.fix_unused_vars fp errors w) in
  trace w' = EvRead fp :: trace w \/
  exists c, trace w' = EvWrite fp c :: EvRead fp :: trace w /\
    List.length (split_nl c) = List.length (split_nl content) /\
    forall i, unreported errors i -> nth_error (split_nl c) i = nth_error (split_nl content) i.
Proof.
  intros w'.
  destruct (unused_loop_frame errors (split_nl content) false Hrange)
    as (lines' & m & Hrun & Hlen & Hnth & Hnl).
  subst w'. unfold FixLint.fix_unused_vars, read_text, emit, bind. cbn beta iota zeta.
  simpl files. rewrite Hread. simpl. rewrite Hrun.
  destruct m.
  - unfold write_text. simpl can_write. simpl trace.
    destruct (can_write w fp); [right | left; reflexivity].
    exists (join_nl lines'). simpl. split; [reflexivity |].
    assert (Hsj : split_nl (join_nl lines') = lines').
    { unfold split_nl, join_nl. apply split_join.
      - intros ->. simpl in Hlen. symmetry in Hlen.
        apply length_zero_iff_nil in Hlen. exact (split_on_not_nil _ _ Hlen).
      - apply Hnl. apply split_on_pieces. }
    rewrite Hsj. split; [exact Hlen | exact Hnth].
  - left. reflexivity.
Qed.

Lemma fix_unused_vars_frame_witness :
  let errs := FixLint.get_lint_errors (demo_lint_out demo_a) [] in
  files (world_of [(demo_a, demo_source)]) demo_a = Some demo_source /\
  lines_in_range errs (List.length (split_nl demo_source)) /\
  (let w' := snd (FixLint.fix_unused_vars demo_a errs (world_of [(demo_a, demo_source)])) in
   trace w' = EvRead demo_a :: trace (world_of [(demo_a, demo_source)]) \/
   exists c, trace w' = EvWrite demo_a c :: EvRead demo_a :: trace (world_of [(demo_a, demo_source)]) /\
     List.length (split_nl c) = List.length (split_nl demo_source) /\
     forall i, unreported errs i -> nth_error (split_nl c) i = nth_error (split_nl demo_source) i).
Proof.
  intros errs.
  assert (Hr : files (world_of [(demo_a, demo_source)]) demo_a = Some demo_source)
    by (vm_compute; reflexivity).
  assert (Hl : lines_in_range errs (List.length (split_nl demo_source))).
  { intros e He _. vm_compute in He. destruct He as [<- | []].
    exists 1%Z. split; [vm_compute; reflexivity | vm_compute; split; discriminate]. }
  split; [exact Hr | split; [exact Hl |]].
  exact (fix_unused_vars_frame _ _ _ _ Hr Hl).
Defined.

(** ** The whole-file scripts: one read-rewrite-write step per file *)

Section WholeFileRuns.
Variable F : text -> text.
Variable msg : path -> exn -> text.
Variable fix_file : path -> M bool.
Hypothesis fix_file_def : forall fp,
  fix_file fp =
  try_except
    (content <- read_text fp;;
     let new := F content in
     if list_eq_dec ascii_dec new content then ret false
     else write_text fp new;; ret true)
    (fun e => eprint (msg fp e);; ret false).

Lemma fix_file_step (fp : path) (w : world) :
  exists b w', fix_file fp w = (Ok b, w') /\ can_write w' = can_write w /\
  ( (b = false /\ files w' = files w /\
     trace w' = EvErr (msg fp (OSError fp)) :: EvRead fp :: trace w)
  \/ (exists c, files w fp = Some c /\ F c = c /\ b = false /\ files w' = files w /\
        trace w' = EvRead fp :: trace w)
  \/ (exists c, files w fp = Some c /\ F c <> c /\ b = true /\
        files w' = upd (files w) fp (F c) /\
        trace w' = EvWrite fp (F c) :: EvRead fp :: trace w)).
Proof.
  rewrite fix_file_def.
  unfold try_except, read_text, write_text, eprint, emit, ret, bind. cbn beta iota zeta.
  simpl files. destruct (files w fp) as [c |] eqn:Hf.
  - simpl. cbn [can_write files trace].
    destruct (list_eq_dec ascii_dec (F c) c) as [Heq | Hne].
    + do 2 eexists. split; [reflexivity |]. split; [reflexivity |].
      right; left. exists c. auto.
    + simpl. destruct (can_write w fp) eqn:Hw.
      * do 2 eexists. split; [reflexivity |]. split; [reflexivity |].
        right; right. exists c. auto.
      * do 2 eexists. split; [reflexivity |]. split; [reflexivity |].
        left. auto.
  - simpl. do 2 eexists. split; [reflexivity |]. split; [reflexivity |].
    left. auto.
Qed.

Variable glob : text -> list path.
Variable dir : path.
Variable excluded : path -> bool.


(** Files are read or written only when the exclusion test let them through. *)
Lemma loop_files_touches (rels : list path) :
  forall count w, exists n ev,
    fst (loop_files dir excluded fix_file rels count w) = Ok n /\
    trace (snd (loop_files dir excluded fix_file rels count w)) = ev ++ trace w /\
    forall p, touches p ev -> excluded p = false.
Proof.
  induction rels as [| r rels IH]; intros count w; simpl.
  - exists count, []. repeat split; auto. intros p [[] | [c []]].
  - destruct (excluded (join_path dir r)) eqn:Hx; [apply IH |].
    unfold bind.
    destruct (fix_file_step (join_path dir r) w) as (b & w1 & Hrun & _ & Hcase).
    rewrite Hrun. cbn beta iota.
    assert (H1 : exists ev1, trace w1 = ev1 ++ trace w /\
                   forall p, touches p ev1 -> p = join_path dir r).
    { destruct Hcase as [(_ & _ & Ht) | [(c & _ & _ & _ & _ & Ht) | (c & _ & _ & _ & _ & Ht)]];
        rewrite Ht.
      - exists [EvErr (msg (join_path dir r) (OSError (join_path dir r)));
                EvRead (join_path dir r)].
        split; [reflexivity |].
        intros p [[H | [H | []]] | [c' [H | [H | []]]]]; congruence.
      - exists [EvRead (join_path dir r)]. split; [reflexivity |].
        intros p [[H | []] | [c' [H | []]]]; congruence.
      - exists [EvWrite (join_path dir r) (F c); EvRead (join_path dir r)].
        split; [reflexivity |].
        intros p [[H | [H | []]] | [c' [H | [H | []]]]]; congruence. }
    destruct H1 as (ev1 & Ht1 & Hp1).
    assert (Hcont : forall count' w2 ev2, trace w2 = ev2 ++ trace w1 ->
              (forall p, touches p ev2 -> excluded p = false) ->
              exists n ev,
                fst (loop_files dir excluded fix_file rels count' w2) = Ok n /\
                trace (snd (loop_files dir excluded fix_file rels count' w2)) = ev ++ trace w /\
                forall p, touches p ev -> excluded p = false).
    { intros count' w2 ev2 Ht2 Hp2.
      destruct (IH count' w2) as (n & ev3 & Hn & Ht3 & Hp3).
      exists n, (ev3 ++ ev2 ++ ev1). split; [exact Hn |]. split.
      { rewrite Ht3, Ht2, Ht1. rewrite !app_assoc. reflexivity. }
      intros p [Hr | [c Hw]].
      - apply in_app_or in Hr as [Hr | Hr]; [apply Hp3; left; exact Hr |].
        apply in_app_or in Hr as [Hr | Hr]; [apply Hp2; left; exact Hr |].
        rewrite (Hp1 p (or_introl Hr)). exact Hx.
      - apply in_app_or in Hw as [Hw | Hw]; [apply Hp3; right; eauto |].
        apply in_app_or in Hw as [Hw | Hw]; [apply Hp2; right; eauto |].
        rewrite (Hp1 p (or_intror (ex_intro _ c Hw))). exact Hx. }
    destruct b.
    + unfold print, emit. cbn beta iota zeta.
      apply (Hcont _ _ [EvOut (T "Fixed: " ++ r)]); [reflexivity |].
      intros p [[H | []] | [c [H | []]]]; discriminate.
    + apply (Hcont _ _ []); [reflexivity |]. intros p [[] | [c []]].
Qed.

Lemma loop_patterns_touches (pats : list text) :
  forall count w, exists n ev,
    fst (loop_patterns glob dir excluded fix_file pats count w) = Ok n /\
    trace (snd (loop_patterns glob dir excluded fix_file pats count w)) = ev ++ trace w /\
    forall p, touches p ev -> excluded p = false.
Proof.
  induction pats as [| pat pats IH]; intros count w; simpl.
  - exists count, []. repeat split; auto. intros p [[] | [c []]].
  - unfold bind.
    destruct (loop_files_touches (glob pat) count w) as (n1 & ev1 & Hn1 & Ht1 & Hp1).
    destruct (loop_files dir excluded fix_file (glob pat) count w) as [r1 w1].
    simpl in Hn1, Ht1. subst r1. cbn beta iota.
    destruct (IH n1 w1) as (n & ev2 & Hn & Ht2 & Hp2).
    exists n, (ev2 ++ ev1). split; [exact Hn |]. split.
    + rewrite Ht2, Ht1, app_assoc. reflexivity.
    + intros p [Hr | [c Hw]].
      * apply in_app_or in Hr as [Hr | Hr]; [apply Hp2 | apply Hp1]; left; exact Hr.
      * apply in_app_or in Hw as [Hw | Hw]; [apply Hp2 | apply Hp1]; right; eauto.
Qed.

Lemma run_patterns_touches (pats : list text) (w : world) :
  exists ev,
    trace (snd (run_patterns glob dir excluded fix_file pats w)) = ev ++ trace w /\
    forall p, touches p ev -> excluded p = false.
Proof.
  unfold run_patterns, bind.
  destruct (loop_patterns_touches pats 0 w) as (n & ev & Hn & Ht & Hp).
  destruct (loop_patterns glob dir excluded fix_file pats 0 w) as [r1 w1].
  simpl in Hn, Ht. subst r1. cbn beta iota.
  exists (EvOut (NL ++ T "Total files fixed: " ++ show_nat n) :: ev). split.
  - unfold print, emit. simpl. rewrite Ht. reflexivity.
  - intros p [[H | Hr] | [c [H | Hw]]]; try discriminate; apply Hp; [left | right]; eauto.
Qed.

Lemma join_path_inj (r1 r2 : path) : join_path dir r1 = join_path dir r2 -> r1 = r2.
Proof.
  unfold join_path. intro H. apply app_inv_head in H. injection H as H. exact H.
Qed.

Lemma NoDup_app_disjoint {A} (l1 l2 : list A) (x : A) :
  NoDup (l1 ++ l2) -> In x l1 -> ~ In x l2.
Proof.
  induction l1 as [| y l1 IH]; simpl; intros Hnd Hx Hx2; [exact Hx |].
  inversion Hnd as [| ? ? Hy Hnd']; subst.
  destruct Hx as [-> | Hx]; [apply Hy, in_or_app; right; exact Hx2 |].
  exact (IH Hnd' Hx Hx2).
Qed.

Lemma written_paths_app (es ev : list event) :
  written_paths (es ++ ev) = written_paths es ++ written_paths ev.
Proof. unfold written_paths. apply flat_map_app. Qed.

(** Events other than writes and [Fixed:] reports leave the invariant intact. *)
Lemma write_inv_quiet (w0 w w' : world) (ev es : list event) :
  write_inv F dir w0 w ev ->
  trace w' = es ++ trace w -> can_write w' = can_write w -> files w' = files w ->
  (forall e, In e es -> (forall p c, e <> EvWrite p c) /\ (forall r, e <> EvOut (T "Fixed: " ++ r))) ->
  write_inv F dir w0 w' (es ++ ev).
Proof.
  intros (Ht & Hc & Hn & Hw & Hf & Hu) Ht' Hc' Hf' Hq.
  assert (Hes : written_paths es = []).
  { clear - Hq. induction es as [| e es IH]; [reflexivity |].
    destruct (Hq e (or_introl eq_refl)) as [Hq1 _].
    destruct e; try (exfalso; eapply Hq1; reflexivity);
      apply IH; intros e' He'; apply Hq; right; exact He'. }
  assert (Hwp : written_paths (es ++ ev) = written_paths ev)
    by (rewrite written_paths_app, Hes; reflexivity).
  refine (conj _ (conj _ (conj _ (conj _ (conj _ _))))).
  - rewrite Ht', Ht, app_assoc. reflexivity.
  - congruence.
  - rewrite Hwp. exact Hn.
  - intros p c Hin. apply in_app_or in Hin as [Hin | Hin]; [| auto].
    exfalso. eapply (proj1 (Hq _ Hin)). reflexivity.
  - intros r Hin. apply in_app_or in Hin as [Hin | Hin].
    + exfalso. eapply (proj2 (Hq _ Hin)). reflexivity.
    + destruct (Hf r Hin) as [c Hc0]. exists c. apply in_or_app. right. exact Hc0.
  - intros p Hp. rewrite Hf'. apply Hu. rewrite <- Hwp. exact Hp.
Qed.

(** A first write of [fp], with the rewritten text of what it held. *)
Lemma write_inv_write (w0 w w' : world) (ev : list event) (fp : path) (c : text) :
  write_inv F dir w0 w ev -> ~ In fp (written_paths ev) ->
  files w fp = Some c -> F c <> c ->
  trace w' = EvWrite fp (F c) :: EvRead fp :: trace w -> can_write w' = can_write w ->
  files w' = upd (files w) fp (F c) ->
  write_inv F dir w0 w' (EvWrite fp (F c) :: EvRead fp :: ev).
Proof.
  intros (Ht & Hc & Hn & Hw & Hf & Hu) Hfp Hr Hne Ht' Hc' Hf'.
  assert (Hwp : written_paths (EvWrite fp (F c) :: EvRead fp :: ev) = fp :: written_paths ev)
    by reflexivity.
  refine (conj _ (conj _ (conj _ (conj _ (conj _ _))))).
  - rewrite Ht', Ht. reflexivity.
  - congruence.
  - rewrite Hwp. constructor; assumption.
  - intros p c' [H | [H | H]].
    + injection H as <- <-. exists c. rewrite <- (Hu fp Hfp).
      split; [exact Hr | split; [reflexivity | exact Hne]].
    + discriminate.
    + auto.
  - intros r [H | [H | H]]; try discriminate.
    destruct (Hf r H) as [c' H']. exists c'. right; right; exact H'.
  - intros p Hp. rewrite Hwp in Hp. rewrite Hf'. unfold upd.
    destruct (list_eq_dec ascii_dec p fp) as [-> | Hpn].
    + exfalso. apply Hp. left. reflexivity.
    + apply Hu. intro H. apply Hp. right. exact H.
Qed.

(** A [Fixed:] report of a path already written. *)
Lemma write_inv_fixed (w0 w w' : world) (ev : list event) (r : path) (c : text) :
  write_inv F dir w0 w ev -> In (EvWrite (join_path dir r) c) ev ->
  trace w' = EvOut (T "Fixed: " ++ r) :: trace w -> can_write w' = can_write w ->
  files w' = files w ->
  write_inv F dir w0 w' (EvOut (T "Fixed: " ++ r) :: ev).
Proof.
  intros (Ht & Hc & Hn & Hw & Hf & Hu) Hin Ht' Hc' Hf'.
  refine (conj _ (conj _ (conj _ (conj _ (conj _ _))))).
  - rewrite Ht', Ht. reflexivity.
  - congruence.
  - exact Hn.
  - intros p c' [H | H]; [discriminate | auto].
  - intros r' [H | H].
    + injection H as H. subst r'.
      exists c. right. exact Hin.
    + destruct (Hf r' H) as [c' H']. exists c'. right. exact H'.
  - intros p Hp. rewrite Hf'. apply Hu. exact Hp.
Qed.

Lemma loop_files_writes (w0 : world) (rels : list path) :
  NoDup rels -> forall count w ev, write_inv F dir w0 w ev ->
  (forall r, In r rels -> ~ In (join_path dir r) (written_paths ev)) ->
  exists n ev',
    fst (loop_files dir excluded fix_file rels count w) = Ok n /\
    write_inv F dir w0 (snd (loop_files dir excluded fix_file rels count w)) ev' /\
    (forall p, In p (written_paths ev') ->
       In p (written_paths ev) \/ exists r, In r rels /\ p = join_path dir r).
Proof.
  induction rels as [| r rels IH]; intros Hnd count w ev Hinv Hfresh; simpl.
  - exists count, ev. split; [reflexivity | split; [exact Hinv | intros p Hp; left; exact Hp]].
  - apply NoDup_cons_iff in Hnd as [Hr Hnd].
    assert (Hcont : forall count' w2 ev2, write_inv F dir w0 w2 ev2 ->
              (forall p, In p (written_paths ev2) -> In p (written_paths ev) \/ p = join_path dir r) ->
              (forall r', In r' rels -> ~ In (join_path dir r') (written_paths ev2)) ->
              exists n ev',
                fst (loop_files dir excluded fix_file rels count' w2) = Ok n /\
                write_inv F dir w0 (snd (loop_files dir excluded fix_file rels count' w2)) ev' /\
                (forall p, In p (written_paths ev') ->
                   In p (written_paths ev) \/ exists r0, In r0 (r :: rels) /\ p = join_path dir r0)).
    { intros count' w2 ev2 H2 Hw2 Hf2.
      destruct (IH Hnd count' w2 ev2 H2 Hf2) as (n & ev' & Hn & Hi & Hp).
      exists n, ev'. split; [exact Hn | split; [exact Hi |]].
      intros p Hin. destruct (Hp p Hin) as [H3 | (r0 & Hr0 & ->)].
      - destruct (Hw2 p H3) as [H4 | ->]; [left; exact H4 |].
        right. exists r. split; [left | ]; reflexivity.
      - right. exists r0. split; [right; exact Hr0 | reflexivity]. }
    assert (Hquiet : forall w2 es, write_inv F dir w0 w2 (es ++ ev) ->
              written_paths es = [] ->
              exists n ev',
                fst (loop_files dir excluded fix_file rels count w2) = Ok n /\
                write_inv F dir w0 (snd (loop_files dir excluded fix_file rels count w2)) ev' /\
                (forall p, In p (written_paths ev') ->
                   In p (written_paths ev) \/ exists r0, In r0 (r :: rels) /\ p = join_path dir r0)).
    { intros w2 es H2 Hes. apply (Hcont count w2 (es ++ ev) H2).
      - intros p Hp. rewrite written_paths_app, Hes in Hp. left. exact Hp.
      - intros r' Hr'. rewrite written_paths_app, Hes. apply Hfresh. right. exact Hr'. }
    set (fp := join_path dir r).
    destruct (excluded fp) eqn:Hx.
    + apply (Hquiet w []); [exact Hinv | reflexivity].
    + unfold bind. destruct (fix_file_step fp w) as (b & w1 & Hrun & Hc1 & Hcase).
      rewrite Hrun. cbn beta iota.
      destruct Hcase as [(-> & Hf1 & Ht1) | [(c & Hc & Hid & -> & Hf1 & Ht1) | (c & Hc & Hne & -> & Hf1 & Ht1)]].
      * apply (Hquiet w1 [EvErr (msg fp (OSError fp)); EvRead fp]); [| reflexivity].
        apply (write_inv_quiet w0 w); auto.
        intros e [<- | [<- | []]]; split; intros; discriminate.
      * apply (Hquiet w1 [EvRead fp]); [| reflexivity].
        apply (write_inv_quiet w0 w); auto.
        intros e [<- | []]; split; intros; discriminate.
      * unfold print, emit. cbn beta iota zeta.
        assert (Hnew : ~ In fp (written_paths ev)) by (apply Hfresh; left; reflexivity).
        apply (Hcont (S count) _ (EvOut (T "Fixed: " ++ r) :: EvWrite fp (F c) :: EvRead fp :: ev)).
        -- apply (write_inv_fixed w0 w1 _ _ r (F c)); try reflexivity.
           ++ exact (write_inv_write w0 w w1 ev fp c Hinv Hnew Hc Hne Ht1 Hc1 Hf1).
           ++ left. reflexivity.
        -- intros p Hp. simpl in Hp. destruct Hp as [<- | Hp]; [right; reflexivity | left; exact Hp].
        -- intros r' Hr' Hp. simpl in Hp. destruct Hp as [Hp | Hp].
           ++ apply join_path_inj in Hp. subst r'. exact (Hr Hr').
           ++ exact (Hfresh r' (or_intror Hr') Hp).
Qed.

Lemma loop_patterns_writes (w0 : world) (pats : list text) :
  NoDup (flat_map glob pats) -> forall count w ev, write_inv F dir w0 w ev ->
  (forall r, In r (flat_map glob pats) -> ~ In (join_path dir r) (written_paths ev)) ->
  exists n ev',
    fst (loop_patterns glob dir excluded fix_file pats count w) = Ok n /\
    write_inv F dir w0 (snd (loop_patterns glob dir excluded fix_file pats count w)) ev'.
Proof.
  induction pats as [| pat pats IH]; intros Hnd count w ev Hinv Hfresh; simpl.
  - exists count, ev. split; [reflexivity | exact Hinv].
  - simpl in Hnd, Hfresh. unfold bind.
    destruct (loop_files_writes w0 (glob pat) (NoDup_app_remove_r _ _ Hnd) count w ev Hinv
                (fun r Hr => Hfresh r (in_or_app _ _ _ (or_introl Hr))))
      as (n1 & ev1 & Hn1 & Hi1 & Hp1).
    destruct (loop_files dir excluded fix_file (glob pat) count w) as [r1 w1].
    simpl in Hn1, Hi1. subst r1. cbn beta iota.
    apply (IH (NoDup_app_remove_l _ _ Hnd) n1 w1 ev1 Hi1).
    intros r Hr Hin. destruct (Hp1 _ Hin) as [H | (r0 & Hr0 & Heq)].
    + exact (Hfresh r (in_or_app _ _ _ (or_intror Hr)) H).
    + apply join_path_inj in Heq. subst r0.
      exact (NoDup_app_disjoint _ _ r Hnd Hr0 Hr).
Qed.

(** A whole run writes each file at most once, only with a rewritten text
    that differs from what the file held, and reports only files it wrote. *)
Lemma run_patterns_writes (pats : list text) (w : world) :
  NoDup (flat_map glob pats) ->
  exists ev, write_inv F dir w (snd (run_patterns glob dir excluded fix_file pats w)) ev.
Proof.
  intro Hnd. unfold run_patterns, bind.
  assert (H0 : write_inv F dir w w []).
  { refine (conj eq_refl (conj eq_refl (conj (NoDup_nil _) (conj _ (conj _ _))))).
    - intros p c [].
    - intros r [].
    - intros p _. reflexivity. }
  destruct (loop_patterns_writes w pats Hnd 0 w [] H0 (fun r _ H => H))
    as (n & ev & Hn & Hi).
  destruct (loop_patterns glob dir excluded fix_file pats 0 w) as [r1 w1].
  simpl in Hn, Hi. subst r1. cbn beta iota.
  exists ([EvOut (NL ++ T "Total files fixed: " ++ show_nat n)] ++ ev).
  unfold print, emit. apply (write_inv_quiet w w1); try reflexivity; [exact Hi |].
  intros e [<- | []]. split; intros; cbn; congruence.
Qed.

End WholeFileRuns.


(** ** Each file written at most once, and only when its text changes *)

(** C4: in a run of either whole-file script ([fix-lint-auto.py],
    [fix-lint-comprehensive.py]) over a directory whose glob expansion lists
    each file once, the events [ev] of the run write every file at most once,
    write a file only with the rewritten text of what it held and only when
    that text differs from it, report as fixed only files written, and leave
    every other file as it was. *)
Theorem whole_file_scripts_write_once (glob : text -> list path) (dir : path) (w : world) :
  NoDup (flat_map glob FixLintAuto.patterns) ->
  NoDup (flat_map glob FixLintComprehensive.patterns) ->
  (exists ev, write_inv FixLintAuto.fix_content dir w (snd (FixLintAuto.main glob dir w)) ev) /\
  (exists ev, write_inv FixLintComprehensive.fix_content dir w
                (snd (FixLintComprehensive.main glob dir w)) ev).
Proof.
  intros H1 H2. split.
  - exact (run_patterns_writes FixLintAuto.fix_content _ FixLintAuto.fix_file
             (fun fp => eq_refl) glob dir FixLintAuto.skip FixLintAuto.patterns w H1).
  - exact (run_patterns_writes FixLintComprehensive.fix_content _ FixLintComprehensive.fix_file
             (fun fp => eq_refl) glob dir FixLintComprehensive.skip
             FixLintComprehensive.patterns w H2).
Qed.

Lemma whole_file_scripts_write_once_witness :
  NoDup (flat_map demo_glob FixLintAuto.patterns) /\
  NoDup (flat_map demo_glob FixLintComprehensive.patterns) /\
  (exists ev, write_inv FixLintAuto.fix_content demo_dir (world_of [])
                (snd (FixLintAuto.main demo_glob demo_dir (world_of []))) ev) /\
  (exists ev, write_inv FixLintComprehensive.fix_content demo_dir (world_of [])
                (snd (FixLintComprehensive.main demo_glob demo_dir (world_of []))) ev).
Proof.
  assert (H1 : NoDup (flat_map demo_glob FixLintAuto.patterns)).
  { vm_compute. apply NoDup_cons; [intros [H | []]; discriminate |].
    apply NoDup_cons; [intros [] | apply NoDup_nil]. }
  assert (H2 : NoDup (flat_map demo_glob FixLintComprehensive.patterns)).
  { vm_compute. apply NoDup_cons; [intros [H | []]; discriminate |].
    apply NoDup_cons; [intros [] | apply NoDup_nil]. }
  split; [exact H1 | split; [exact H2 |]].
  exact (whole_file_scripts_write_once demo_glob demo_dir (world_of []) H1 H2).
Defined.

(** ** Test and story files are skipped *)

Lemma contains_app_l (x u s : text) : contains x s = true -> contains x (u ++ s) = true.
Proof.
  induction u as [| c u IH]; intro H; [exact H |].
  simpl. rewrite (IH H). apply orb_true_r.
Qed.

Lemma split_on_last (sep : ascii) (s : text) :
  exists u, s = u ++ last (split_on sep s) [] /\ (tl (split_on sep s) = [] -> u = []).
Proof.
  induction s as [| c s (u & Hu & Hu1)].
  - exists []. split; reflexivity.
  - simpl. destruct (Ascii.eqb c sep).
    + exists (c :: u). split.
      * destruct (split_on sep s) as [| x l] eqn:E; [exfalso; exact (split_on_not_nil sep s E) |].
        rewrite Hu at 1. reflexivity.
      * simpl. intro H. exfalso. exact (split_on_not_nil sep s H).
    + destruct (split_on sep s) as [| x [| y l]] eqn:E.
      * exists []. split; [| reflexivity]. simpl in Hu. rewrite Hu1 in Hu by reflexivity.
        simpl in Hu. rewrite Hu. reflexivity.
      * exists []. split; [| reflexivity]. rewrite Hu1 in Hu by reflexivity.
        simpl in Hu |- *. rewrite Hu. reflexivity.
      * exists (c :: u). split; [| discriminate]. simpl in Hu |- *. rewrite Hu at 1. reflexivity.
Qed.

Lemma contains_basename (x p : path) : contains x (basename p) = true -> contains x p = true.
Proof.
  intro H. unfold basename in H. destruct (split_on_last "/"%char p) as (u & Hu & _).
  rewrite Hu. apply contains_app_l. exact H.
Qed.

(** C5: a file whose name contains [.test.], [.stories.] or [__tests__] is
    neither read nor written by a run of either whole-file script: the
    events [ev] of the run never open it. *)
Theorem whole_file_scripts_skip_tests (glob : text -> list path) (dir : path) (w : world)
  (p x : path) :
  In x (map T [".test."; ".stories."; "__tests__"]%string) ->
  contains x (basename p) = true ->
  (exists ev, trace (snd (FixLintAuto.main glob dir w)) = ev ++ trace w /\ ~ touches p ev) /\
  (exists ev, trace (snd (FixLintComprehensive.main glob dir w)) = ev ++ trace w /\
              ~ touches p ev).
Proof.
  intros Hx Hp. split.
  - destruct (run_patterns_touches FixLintAuto.fix_content _ FixLintAuto.fix_file
                (fun fp => eq_refl) glob dir FixLintAuto.skip FixLintAuto.patterns w)
      as (ev & Ht & Hs).
    exists ev. split; [exact Ht |]. intro Ht'. specialize (Hs p Ht').
    assert (Hk : FixLintAuto.skip p = true).
    { apply existsb_exists. exists x. split; [exact Hx | exact Hp]. }
    congruence.
  - destruct (run_patterns_touches FixLintComprehensive.fix_content _
                FixLintComprehensive.fix_file (fun fp => eq_refl) glob dir
                FixLintComprehensive.skip FixLintComprehensive.patterns w)
      as (ev & Ht & Hs).
    exists ev. split; [exact Ht |]. intro Ht'. specialize (Hs p Ht').
    assert (Hk : FixLintComprehensive.skip p = true).
    { apply existsb_exists. exists x. split.
      - simpl in Hx |- *. tauto.
      - exact (contains_basename x p Hp). }
    congruence.
Qed.

Lemma whole_file_scripts_skip_tests_witness :
  In (T ".test.") (map T [".test."; ".stories."; "__tests__"]%string) /\
  contains (T ".test.") (basename (join_path demo_dir (T "a.test.tsx"))) = true /\
  ((exists ev, trace (snd (FixLintAuto.main demo_glob demo_dir (world_of []))) = ev ++ []
     /\ ~ touches (join_path demo_dir (T "a.test.tsx")) ev) /\
   (exists ev, trace (snd (FixLintComprehensive.main demo_glob demo_dir (world_of []))) = ev ++ []
     /\ ~ touches (join_path demo_dir (T "a.test.tsx")) ev)).
Proof.
  assert (H1 : In (T ".test.") (map T [".test."; ".stories."; "__tests__"]%string))
    by (left; reflexivity).
  assert (H2 : contains (T ".test.") (basename (join_path demo_dir (T "a.test.tsx"))) = true)
    by (vm_compute; reflexivity).
  split; [exact H1 | split; [exact H2 |]].
  exact (whole_file_scripts_skip_tests demo_glob demo_dir (world_of []) _ _ H1 H2).
Defined.

(** ** The lint-output parsers *)

Lemma dict_get_set_eq {V} (d : dict V) (k : text) (v : V) : dict_get (dict_set d k v) k = Some v.
Proof.
  induction d as [| [k' v'] d IH]; simpl.
  - destruct (list_eq_dec ascii_dec k k); [reflexivity | congruence].
  - destruct (list_eq_dec ascii_dec k k') as [-> | Hn]; simpl.
    + destruct (list_eq_dec ascii_dec k' k'); [reflexivity | congruence].
    + destruct (list_eq_dec ascii_dec k k'); [congruence | exact IH].
Qed.

Lemma dict_get_set_neq {V} (d : dict V) (k k' : text) (v : V) :
  k' <> k -> dict_get (dict_set d k v) k' = dict_get d k'.
Proof.
  intro Hk. induction d as [| [k0 v0] d IH]; simpl.
  - destruct (list_eq_dec ascii_dec k' k); [congruence | reflexivity].
  - destruct (list_eq_dec ascii_dec k k0) as [-> | Hn]; simpl.
    + destruct (list_eq_dec ascii_dec k' k0); [congruence | reflexivity].
    + destruct (list_eq_dec ascii_dec k' k0); [reflexivity | exact IH].
Qed.

Lemma dict_get_set_some {V} (d : dict V) (k k' : text) (v : V) :
  dict_get d k' <> None -> dict_get (dict_set d k v) k' <> None.
Proof.
  intro H. destruct (list_eq_dec ascii_dec k' k) as [-> | Hn].
  - rewrite dict_get_set_eq. discriminate.
  - rewrite dict_get_set_neq by exact Hn. exact H.
Qed.

Section ComprehensiveParser.
Import FixLintComprehensive.

Lemma parse_lines_prefix (pre rest : list text) :
  forall cur d, cursor_ok cur d ->
  exists cur' d', cursor_ok cur' d' /\ parse_lines (pre ++ rest) cur d = parse_lines rest cur' d'.
Proof.
  induction pre as [| line pre IH]; intros cur d Hok; simpl.
  - exists cur, d. auto.
  - destruct (is_excluded_line line); [apply IH; exact Hok |].
    destruct (is_path_line line).
    + apply IH. intros cf [= <-]. rewrite dict_get_set_eq. discriminate.
    + destruct cur as [cf |]; [| apply IH; exact Hok].
      match goal with |- context [if ?b then _ else _] => destruct b end;
        [| apply IH; exact Hok].
      destruct (dict_get d cf) as [l |] eqn:E; [| exfalso; exact (Hok cf eq_refl E)].
      apply IH. intros cf' [= <-]. rewrite dict_get_set_eq. discriminate.
Qed.

Lemma parse_lines_keep (P : text) (v : list text) (post : list text) :
  (forall L, In L post -> is_excluded_line L = true \/
     (is_path_line L = false /\ (contains (T ":") L && contains (T "error") L) = false) \/
     (is_path_line L = true /\ strip L <> P)) ->
  forall cur d, cursor_ok cur d -> dict_get d P = Some v ->
  exists d', parse_lines post cur d = Ok d' /\ dict_get d' P = Some v.
Proof.
  induction post as [| L post IH]; intros Hpost cur d Hok HP; cbn [parse_lines].
  - exists d. auto.
  - assert (Hrest : forall L', In L' post -> _) by (intros L' HL'; apply Hpost; right; exact HL').
    destruct (Hpost L (or_introl eq_refl)) as [Hx | [[Hp He] | [Hp Hs]]].
    + rewrite Hx. apply IH; assumption.
    + destruct (is_excluded_line L); [apply IH; assumption |].
      rewrite Hp. destruct cur as [cf |]; [| apply IH; assumption].
      destruct (contains (T ":") L), (contains (T "error") L); try discriminate;
        rewrite ?andb_false_r; apply IH; assumption.
    + destruct (is_excluded_line L); [apply IH; assumption |].
      rewrite Hp. apply IH; [exact Hrest | |].
      * intros cf [= <-]. rewrite dict_get_set_eq. discriminate.
      * rewrite dict_get_set_neq by (intro H; apply Hs; symmetry; exact H). exact HP.
Qed.



End ComprehensiveParser.






(** ** The [@ts-ignore] rule *)

Lemma mt_str (s : text) :
  forall k b a cs, mt (RStr s) k b a cs =
  if starts_with s a then k (rev s ++ b) (skipn (List.length s) a) cs else None.
Proof.
  induction s as [| c s IH]; intros k b a cs; [reflexivity |].
  cbn [RStr fold_right mt]. destruct a as [| d a]; [reflexivity |].
  cbn [starts_with]. destruct (Ascii.eqb c d) eqn:E; [| reflexivity].
  apply Ascii.eqb_eq in E. subst d. cbn [andb]. fold (RStr s). rewrite IH.
  destruct (starts_with s a); [| reflexivity].
  cbn [rev List.length skipn]. rewrite <- app_assoc. reflexivity.
Qed.

(** A greedy star whose continuation never accepts a position before a
    character of its class consumes the whole run of that class. *)
Lemma star_try_stop (p : ascii -> bool) (k : cont) :
  (forall b c a cs, p c = true -> k b (c :: a) cs = None) ->
  forall s b cs, star_try p k b s cs = k (rev (fst (span p s)) ++ b) (snd (span p s)) cs.
Proof.
  intros Hk. induction s as [| c s IH]; intros b cs; [reflexivity |].
  cbn [star_try span]. destruct (p c) eqn:Hc; [| reflexivity].
  rewrite IH. destruct (span p s) as [u r]. cbn [fst snd rev].
  rewrite <- app_assoc. cbn [app].
  destruct (k (rev u ++ c :: b) r cs); [reflexivity |]. apply Hk. exact Hc.
Qed.

Lemma word_at_ignore (x : text) : word_at (hd_error (rev (T "@ts-ignore") ++ x)) = true.
Proof. reflexivity. Qed.

Lemma ts_match (b a : text) :
  re_match FixLintAuto.ts_re b a =
  match ts_split a with Some (m, rest) => Some (rev m ++ b, rest, []) | None => None end.
Proof.
  unfold re_match, FixLintAuto.ts_re, RCat. cbn [fold_right mt].
  rewrite mt_str. unfold ts_split.
  destruct (starts_with (T "//") a); [| reflexivity].
  change (List.length (T "//")) with 2.
  rewrite star_try_stop.
  - destruct (span is_space (skipn 2 a)) as [u r2]. cbn [fst snd].
    rewrite mt_str. destruct (starts_with (T "@ts-ignore") r2); [| reflexivity].
    change (List.length (T "@ts-ignore")) with 10. cbn [andb].
    rewrite word_at_ignore.
    destruct (word_at (hd_error (skipn 10 r2))); cbn [xorb negb]; [reflexivity |].
    unfold kdone. rewrite !rev_app_distr, <- !app_assoc. reflexivity.
  - intros b0 c a0 cs0 Hc. rewrite mt_str.
    change (T "@ts-ignore") with ("@"%char :: T "ts-ignore"). cbn [starts_with].
    destruct (Ascii.eqb "@" c) eqn:E; [| reflexivity].
    apply Ascii.eqb_eq in E. subst c. discriminate Hc.
Qed.

Lemma starts_with_split (s a : text) : starts_with s a = true -> a = s ++ skipn (List.length s) a.
Proof.
  revert a. induction s as [| c s IH]; intros a H; [reflexivity |].
  destruct a as [| d a]; [discriminate |].
  cbn [starts_with] in H. apply andb_prop in H as [H1 H2]. apply Ascii.eqb_eq in H1. subst d.
  cbn [app List.length skipn]. rewrite <- (IH a H2). reflexivity.
Qed.

Lemma span_split (p : ascii -> bool) (s : text) : s = fst (span p s) ++ snd (span p s).
Proof.
  induction s as [| c s IH]; [reflexivity |]. cbn [span].
  destruct (p c); [| reflexivity]. destruct (span p s) as [u r]. cbn [fst snd] in *.
  rewrite IH at 1. reflexivity.
Qed.

Lemma ts_split_shape (a m rest : text) :
  ts_split a = Some (m, rest) -> a = m ++ rest /\ 12 <= List.length m.
Proof.
  unfold ts_split. destruct (starts_with (T "//") a) eqn:E1; [| discriminate].
  pose proof (span_split is_space (skipn 2 a)) as Hs.
  destruct (span is_space (skipn 2 a)) as [u r2]. cbn [fst snd] in Hs.
  destruct (starts_with (T "@ts-ignore") r2) eqn:E2; [| discriminate].
  destruct (negb _); [| discriminate]. intros [= <- <-].
  split.
  - rewrite (starts_with_split _ _ E1) at 1. change (List.length (T "//")) with 2.
    rewrite Hs. rewrite (starts_with_split _ _ E2) at 1.
    change (List.length (T "@ts-ignore")) with 10. cbn [app]. rewrite <- app_assoc. reflexivity.
  - simpl. rewrite length_app. simpl. lia.
Qed.

Lemma ts_loop (f : nat) :
  forall f' b b' a, List.length a < f -> List.length a < f' ->
  sub_loop FixLintAuto.ts_re FixLintAuto.ts_tpl f b a =
  sub_loop FixLintAuto.ts_re FixLintAuto.ts_tpl f' b' a.
Proof.
  induction f as [| f IH]; intros f' b b' a H H'; [lia |].
  destruct f' as [| f']; [lia |].
  cbn [sub_loop]. rewrite !ts_match.
  destruct (ts_split a) as [[m rest] |] eqn:E.
  - destruct (ts_split_shape _ _ _ E) as [Ha Hm]. subst a.
    rewrite length_app in H, H' |- *.
    assert (Hlt : List.length rest < List.length m + List.length rest) by lia.
    apply Nat.ltb_lt in Hlt. rewrite Hlt.
    f_equal. apply IH; lia.
  - destruct a as [| c t]; [reflexivity |]. cbn [List.length] in H, H'.
    f_equal. apply IH; lia.
Qed.

Lemma fix_ts_step_match (a m rest : text) :
  ts_split a = Some (m, rest) ->
  FixLintAuto.fix_ts_ignore a = T "// @ts-expect-error" ++ FixLintAuto.fix_ts_ignore rest.
Proof.
  intro E. destruct (ts_split_shape _ _ _ E) as [Ha Hm].
  remember (FixLintAuto.fix_ts_ignore rest) as R eqn:HR.
  unfold FixLintAuto.fix_ts_ignore, re_sub. cbn [sub_loop]. rewrite ts_match, E.
  assert (Hlt : (List.length rest <? List.length a) = true).
  { apply Nat.ltb_lt. rewrite Ha, length_app. lia. }
  rewrite Hlt. f_equal. rewrite HR. apply ts_loop; rewrite Ha, length_app in *; lia.
Qed.

Lemma fix_ts_step_none (c : ascii) (t : text) :
  ts_split (c :: t) = None ->
  FixLintAuto.fix_ts_ignore (c :: t) = c :: FixLintAuto.fix_ts_ignore t.
Proof.
  intro E. remember (FixLintAuto.fix_ts_ignore t) as R eqn:HR.
  unfold FixLintAuto.fix_ts_ignore, re_sub. cbn [sub_loop]. rewrite ts_match, E.
  f_equal. rewrite HR. apply ts_loop; cbn [List.length]; lia.
Qed.

Lemma fix_ts_nil : FixLintAuto.fix_ts_ignore [] = [].
Proof. reflexivity. Qed.

Lemma ts_split_no_slash (c : ascii) (t : text) : c <> "/"%char -> ts_split (c :: t) = None.
Proof.
  intro Hc. unfold ts_split. change (T "//") with ["/"; "/"]%char. cbn [starts_with].
  destruct (Ascii.eqb "/" c) eqn:E; [| reflexivity].
  apply Ascii.eqb_eq in E. congruence.
Qed.

Lemma span_app_stop (p : ascii -> bool) (c : ascii) (y : text) :
  p c = false -> forall s, span p (s ++ c :: y) = (fst (span p s), snd (span p s) ++ c :: y).
Proof.
  intros Hc s. induction s as [| d s IH]; cbn [app span].
  - rewrite Hc. reflexivity.
  - destruct (p d); [| reflexivity]. rewrite IH. destruct (span p s). reflexivity.
Qed.

Lemma span_app_all (p : ascii -> bool) (u r : text) :
  forallb p u = true -> (forall c r', r = c :: r' -> p c = false) -> span p (u ++ r) = (u, r).
Proof.
  intros Hu Hr. induction u as [| c u IH]; cbn [app span].
  - destruct r as [| c r']; [reflexivity |]. cbn [span]. rewrite (Hr c r' eq_refl). reflexivity.
  - cbn [forallb] in Hu. apply andb_prop in Hu as [Hc Hu]. rewrite Hc, (IH Hu). reflexivity.
Qed.

Lemma starts_with_app_long (s r y : text) :
  List.length s <= List.length r -> starts_with s (r ++ y) = starts_with s r.
Proof.
  revert r. induction s as [| c s IH]; intros r H; [reflexivity |].
  destruct r as [| d r]; cbn [List.length] in H; [lia |].
  cbn [app starts_with]. rewrite IH by lia. reflexivity.
Qed.

Lemma starts_with_length (s r : text) : starts_with s r = true -> List.length s <= List.length r.
Proof.
  revert r. induction s as [| c s IH]; intros r H; cbn [List.length]; [lia |].
  destruct r as [| d r]; [discriminate |]. cbn [starts_with] in H.
  apply andb_prop in H as [_ H]. specialize (IH r H). cbn [List.length]. lia.
Qed.

Lemma starts_with_short (s r y : text) (c : ascii) :
  starts_with s (r ++ c :: y) = true -> List.length r < List.length s -> In c s.
Proof.
  revert s. induction r as [| d r IH]; intros s H Hl; destruct s as [| e s];
    cbn [List.length] in Hl; try lia; cbn [app starts_with] in H;
    apply andb_prop in H as [H1 H2].
  - apply Ascii.eqb_eq in H1. left. exact H1.
  - right. apply (IH s H2). lia.
Qed.

Lemma starts_with_self (s x : text) : starts_with s (s ++ x) = true.
Proof.
  induction s as [| c s IH]; [reflexivity |]. cbn [app starts_with].
  rewrite Ascii.eqb_refl, IH. reflexivity.
Qed.

Lemma word_at_app_slash (x y : text) : word_at (hd_error (x ++ "/"%char :: y)) = word_at (hd_error x).
Proof. destruct x; reflexivity. Qed.

Lemma no_slash_in_ignore : ~ In "/"%char (T "@ts-ignore").
Proof. intro H. repeat (destruct H as [H | H]; [discriminate H |]). exact H. Qed.

(** A match of the rule never runs across the [//] of a following directive. *)
Lemma ts_split_app (pre Y' : text) :
  pre <> [] ->
  ts_split (pre ++ "/"%char :: "/"%char :: Y') =
  match ts_split pre with Some (m, rest) => Some (m, rest ++ "/"%char :: "/"%char :: Y') | None => None end.
Proof.
  intro Hne. unfold ts_split. change (T "//") with ["/"; "/"]%char.
  destruct pre as [| c1 [| c2 pre']]; [congruence | |].
  - cbn [app starts_with]. rewrite Ascii.eqb_refl.
    destruct (Ascii.eqb "/" c1); reflexivity.
  - cbn [app starts_with].
    change (skipn 2 (c1 :: c2 :: pre' ++ "/"%char :: "/"%char :: Y'))
      with (pre' ++ "/"%char :: "/"%char :: Y').
    change (skipn 2 (c1 :: c2 :: pre')) with pre'.
    destruct (Ascii.eqb "/" c1 && (Ascii.eqb "/" c2 && true)); [| reflexivity].
    rewrite (span_app_stop is_space "/"%char _ eq_refl).
    destruct (span is_space pre') as [u r]. cbn [fst snd].
    destruct (le_lt_dec 10 (List.length r)) as [Hl | Hl].
    + rewrite starts_with_app_long by exact Hl.
      rewrite skipn_app. replace (10 - List.length r) with 0 by lia.
      change (skipn 0 ("/"%char :: "/"%char :: Y')) with ("/"%char :: "/"%char :: Y').
      rewrite word_at_app_slash.
      destruct (starts_with (T "@ts-ignore") r && negb (word_at (hd_error (skipn 10 r))));
        reflexivity.
    + assert (H1 : starts_with (T "@ts-ignore") r = false).
      { destruct (starts_with (T "@ts-ignore") r) eqn:E; [| reflexivity].
        apply starts_with_length in E. cbn in E. lia. }
      assert (H2 : starts_with (T "@ts-ignore") (r ++ "/"%char :: "/"%char :: Y') = false).
      { destruct (starts_with (T "@ts-ignore") (r ++ _)) eqn:E; [| reflexivity].
        exfalso. apply no_slash_in_ignore. exact (starts_with_short _ _ _ _ E Hl). }
      rewrite H1, H2. reflexivity.
Qed.

Lemma ts_split_directive (ws note : text) :
  forallb is_space ws = true -> word_at (hd_error note) = false ->
  ts_split (T "//" ++ ws ++ T "@ts-ignore" ++ note) = Some (T "//" ++ ws ++ T "@ts-ignore", note).
Proof.
  intros Hws Hn. unfold ts_split. rewrite starts_with_self.
  change (skipn 2 (T "//" ++ ws ++ T "@ts-ignore" ++ note)) with (ws ++ T "@ts-ignore" ++ note).
  rewrite span_app_all by (exact Hws || (intros c r' [= <- _]; reflexivity)).
  rewrite starts_with_self.
  change 10 with (List.length (T "@ts-ignore")).
  rewrite skipn_app, skipn_all, Nat.sub_diag. cbn [app skipn].
  rewrite Hn. reflexivity.
Qed.

Lemma fix_ts_app (Y' : text) (pre : text) :
  FixLintAuto.fix_ts_ignore (pre ++ "/"%char :: "/"%char :: Y') =
  FixLintAuto.fix_ts_ignore pre ++ FixLintAuto.fix_ts_ignore ("/"%char :: "/"%char :: Y').
Proof.
  remember (List.length pre) as n eqn:Hn. revert pre Hn.
  induction n as [n IH] using lt_wf_ind. intros pre Hn.
  destruct pre as [| c t]; [rewrite fix_ts_nil; reflexivity |].
  pose proof (ts_split_app (c :: t) Y' ltac:(discriminate)) as Hs.
  cbn [app] in Hs |- *.
  destruct (ts_split (c :: t)) as [[m rest] |] eqn:E.
  - destruct (ts_split_shape _ _ _ E) as [Ht Hm].
    rewrite (fix_ts_step_match _ _ _ Hs), (fix_ts_step_match _ _ _ E), <- app_assoc.
    f_equal. apply (IH (List.length rest)); [| reflexivity].
    rewrite Hn, Ht, length_app. lia.
  - rewrite (fix_ts_step_none _ _ Hs), (fix_ts_step_none _ _ E). cbn [app].
    f_equal. apply (IH (List.length t)); [rewrite Hn; cbn; lia | reflexivity].
Qed.

Lemma fix_ts_no_slash (s : text) : ~ In "/"%char s -> FixLintAuto.fix_ts_ignore s = s.
Proof.
  induction s as [| c s IH]; intro H; [exact fix_ts_nil |].
  rewrite fix_ts_step_none.
  - f_equal. apply IH. intro H'. apply H. right. exact H'.
  - apply ts_split_no_slash. intro Hc. apply H. left. exact Hc.
Qed.

(** A text in which no position starts a match of the rule is left as it is. *)
Lemma fix_ts_no_match (s : text) :
  forall b, no_match_along FixLintAuto.ts_re b s [] -> FixLintAuto.fix_ts_ignore s = s.
Proof.
  induction s as [| c s IH]; intros b H; [exact fix_ts_nil |].
  destruct H as [H1 H2]. rewrite ts_match, app_nil_r in H1.
  rewrite fix_ts_step_none.
  - f_equal. exact (IH _ H2).
  - destruct (ts_split (c :: s)) as [[m r] |]; [discriminate | reflexivity].
Qed.

(** C8: in a text [pre // ws @ts-ignore note], where [ws] is white space,
    [note] does not start with a word character (so [@ts-ignore] is the
    whole token) and no position of [note] starts a further match of
    [//\s*@ts-ignore\b], the rule of [fix-lint-auto.py] replaces the
    directive by [// @ts-expect-error], keeps [note] verbatim after it, and
    treats the text before it on its own. *)
Theorem ts_ignore_directive_swapped (pre ws note : text) :
  forallb is_space ws = true -> word_at (hd_error note) = false ->
  no_match_along FixLintAuto.ts_re [] note [] ->
  FixLintAuto.fix_ts_ignore (pre ++ T "//" ++ ws ++ T "@ts-ignore" ++ note) =
  FixLintAuto.fix_ts_ignore pre ++ T "// @ts-expect-error" ++ note.
Proof.
  intros Hws Hn Hnm.
  change (T "//" ++ ws ++ T "@ts-ignore" ++ note)
    with ("/"%char :: "/"%char :: (ws ++ T "@ts-ignore" ++ note)).
  rewrite fix_ts_app. f_equal.
  rewrite (fix_ts_step_match ("/"%char :: "/"%char :: (ws ++ T "@ts-ignore" ++ note)) _ _
             (ts_split_directive ws note Hws Hn)).
  f_equal. exact (fix_ts_no_match note [] Hnm).
Qed.

Lemma ts_ignore_directive_swapped_witness :
  (forallb is_space (T " ") = true /\ word_at (hd_error (T " see https://x/y")) = false /\
   no_match_along FixLintAuto.ts_re [] (T " see https://x/y") []) /\
  FixLintAuto.fix_ts_ignore (T "foo(); " ++ T "//" ++ T " " ++ T "@ts-ignore" ++ T " see https://x/y") =
  FixLintAuto.fix_ts_ignore (T "foo(); ") ++ T "// @ts-expect-error" ++ T " see https://x/y".
Proof.
  assert (H1 : forallb is_space (T " ") = true) by reflexivity.
  assert (H2 : word_at (hd_error (T " see https://x/y")) = false) by reflexivity.
  assert (H3 : no_match_along FixLintAuto.ts_re [] (T " see https://x/y") [])
    by (vm_compute; repeat split).
  split; [split; [exact H1 | split; [exact H2 | exact H3]] |].
  exact (ts_ignore_directive_swapped (T "foo(); ") (T " ") (T " see https://x/y") H1 H2 H3).
Defined.

(** A note holding a second directive is not kept: both directives are
    replaced. *)
Lemma ts_ignore_note_not_verbatim :
  FixLintAuto.fix_ts_ignore (T "// @ts-ignore see // @ts-ignore") =
  T "// @ts-expect-error see // @ts-expect-error" /\
  FixLintAuto.fix_ts_ignore (T "// @ts-ignore see // @ts-ignore") <>
  T "// @ts-expect-error" ++ T " see // @ts-ignore".
Proof.
  split; [vm_compute; reflexivity |]. vm_compute. discriminate.
Qed.

(** ** The dynamic-require rule *)

(** A greedy star ends in a position its continuation accepts. *)
Lemma star_try_spec (p : ascii -> bool) (k : cont) :
  forall s b cs r, star_try p k b s cs = Some r ->
  exists u w, s = u ++ w /\ forallb p u = true /\ k (rev u ++ b) w cs = Some r.
Proof.
  induction s as [| c s IH]; intros b cs r H; cbn [star_try] in H.
  - exists [], []. auto.
  - destruct (p c) eqn:Hc.
    + destruct (star_try p k (c :: b) s cs) eqn:E.
      * injection H as <-. destruct (IH _ _ _ E) as (u & w & -> & Hu & Hk).
        exists (c :: u), w. split; [reflexivity |]. split; [cbn; rewrite Hc; exact Hu |].
        cbn [rev]. rewrite <- app_assoc. exact Hk.
      * exists [], (c :: s). auto.
    + exists [], (c :: s). auto.
Qed.

(** When every position of the star is rejected or gives the same result,
    and one gives it, the star gives that result. *)
Lemma star_try_uniform (p : ascii -> bool) (k : cont) (R : mres) :
  forall s b cs,
  (forall u w, s = u ++ w -> forallb p u = true ->
     k (rev u ++ b) w cs = None \/ k (rev u ++ b) w cs = Some R) ->
  (exists u w, s = u ++ w /\ forallb p u = true /\ k (rev u ++ b) w cs = Some R) ->
  star_try p k b s cs = Some R.
Proof.
  induction s as [| c s IH]; intros b cs Hall (u & w & Hs & Hu & Hk); cbn [star_try].
  - destruct u; [| discriminate]. cbn in Hs. subst w. exact Hk.
  - destruct (p c) eqn:Hc.
    + destruct (star_try p k (c :: b) s cs) as [r |] eqn:E.
      * destruct (star_try_spec p k _ _ _ _ E) as (u' & w' & Hs' & Hu' & Hk').
        destruct (Hall (c :: u') w') as [Hn | Hs2].
        -- rewrite Hs'. reflexivity.
        -- cbn. rewrite Hc. exact Hu'.
        -- cbn [rev] in Hn. rewrite <- app_assoc in Hn. cbn [app] in Hn. congruence.
        -- cbn [rev] in Hs2. rewrite <- app_assoc in Hs2. cbn [app] in Hs2. congruence.
      * destruct u as [| c' u]; [cbn in Hs; subst w; exact Hk |].
        injection Hs as <- Hs. exfalso.
        cbn [forallb] in Hu. apply andb_prop in Hu as [_ Hu].
        assert (Hsome : star_try p k (c :: b) s cs = Some R).
        { apply IH.
          - intros u1 w1 Hs1 Hu1. destruct (Hall (c :: u1) w1) as [Hn | Hs2].
            + rewrite Hs1. reflexivity.
            + cbn. rewrite Hc. exact Hu1.
            + left. cbn [rev] in Hn. rewrite <- app_assoc in Hn. exact Hn.
            + right. cbn [rev] in Hs2. rewrite <- app_assoc in Hs2. exact Hs2.
          - exists u, w. split; [exact Hs | split; [exact Hu |]].
            cbn [rev] in Hk. rewrite <- app_assoc in Hk. exact Hk. }
        congruence.
    + destruct u as [| c' u]; [cbn in Hs; subst w; exact Hk |].
      injection Hs as <- _. cbn in Hu. rewrite Hc in Hu. discriminate.
Qed.

(** A greedy star gives the result of the longest position its
    continuation accepts. *)
Lemma star_try_longest (p : ascii -> bool) (k : cont) (R : mres) :
  forall u0 w0 b cs,
  forallb p u0 = true -> k (rev u0 ++ b) w0 cs = Some R ->
  (forall u1 w, w0 = u1 ++ w -> u1 <> [] -> forallb p u1 = true ->
     k (rev (u0 ++ u1) ++ b) w cs = None) ->
  star_try p k b (u0 ++ w0) cs = Some R.
Proof.
  induction u0 as [| c u0 IH]; intros w0 b cs Hu Hk Hlong.
  - cbn [app]. destruct w0 as [| c w0]; [exact Hk |]. cbn [star_try].
    destruct (p c) eqn:Hc; [| exact Hk].
    destruct (star_try p k (c :: b) w0 cs) as [r |] eqn:E; [| exact Hk].
    exfalso. destruct (star_try_spec p k _ _ _ _ E) as (u & w & -> & Hu' & Hk').
    assert (Hn := Hlong (c :: u) w eq_refl ltac:(discriminate)
                   ltac:(cbn; rewrite Hc; exact Hu')).
    cbn [app rev] in Hn. rewrite <- app_assoc in Hn. cbn [app] in Hn. congruence.
  - cbn [forallb] in Hu. apply andb_prop in Hu as [Hc Hu].
    cbn [app star_try]. rewrite Hc.
    rewrite (IH w0 (c :: b) cs Hu).
    + reflexivity.
    + cbn [rev] in Hk. rewrite <- app_assoc in Hk. exact Hk.
    + intros u1 w Hw Hne Hu1. specialize (Hlong u1 w Hw Hne Hu1).
      cbn [app rev] in Hlong. rewrite <- app_assoc in Hlong. exact Hlong.
Qed.

Lemma mt_cat_cons (r : regex) (rs : list regex) (k : cont) (b a : text) (cs : caps) :
  mt (RCat (r :: rs)) k b a cs = mt r (fun b' a' cs' => mt (RCat rs) k b' a' cs') b a cs.
Proof. reflexivity. Qed.

Lemma mt_cat_nil (k : cont) (b a : text) (cs : caps) : mt (RCat []) k b a cs = k b a cs.
Proof. reflexivity. Qed.

Lemma mt_star (p : ascii -> bool) (k : cont) (b a : text) (cs : caps) :
  mt (RStar p) k b a cs = star_try p k b a cs.
Proof. reflexivity. Qed.

Lemma mt_group (n : nat) (r : regex) (k : cont) (b a : text) (cs : caps) :
  mt (RGroup n r) k b a cs =
  mt r (fun b' a' cs' => k b' a' ((n, firstn (List.length a - List.length a') a) :: cs')) b a cs.
Proof. reflexivity. Qed.

Lemma forallb_is_dot (s : text) : ~ In "010"%char s -> forallb is_dot s = true.
Proof.
  induction s as [| c s IH]; intro H; [reflexivity |]. cbn [forallb].
  rewrite IH by (intro H'; apply H; right; exact H').
  unfold is_dot. destruct (Nat.eqb_spec (code c) 10) as [E | E]; [| reflexivity].
  exfalso. apply H. left. unfold code in E.
  rewrite <- (ascii_nat_embedding c), E. reflexivity.
Qed.

Lemma not_quote_start (s u w x : text) :
  ~ In "'"%char s -> s = u ++ w -> starts_with ("'"%char :: x) w = false.
Proof.
  intros Hs Hw. destruct w as [| d w]; [reflexivity |]. cbn [starts_with].
  destruct (Ascii.eqb "'" d) eqn:E; [| reflexivity].
  apply Ascii.eqb_eq in E. subst d. exfalso. apply Hs. rewrite Hw.
  apply in_or_app. right. left. reflexivity.
Qed.

Lemma no_quote_close : ~ In "'"%char (T ");").
Proof. intros [H | [H | []]]; discriminate. Qed.

(** The star of [.*'\);] ends at the last [');] of the line. *)
Lemma req_tail (k : cont) (b z : text) (cs : caps) (R : mres) :
  ~ In "010"%char z -> k (rev (z ++ T "');") ++ b) [] cs = Some R ->
  mt (RCat [RStar is_dot; RStr (T "');")]) k b (z ++ T "');") cs = Some R.
Proof.
  intros Hz Hk. rewrite mt_cat_cons, mt_star.
  apply star_try_longest.
  - exact (forallb_is_dot z Hz).
  - rewrite mt_cat_cons, mt_str.
    change (starts_with (T "');") (T "');")) with true. cbv iota.
    change (skipn (List.length (T "');")) (T "');")) with (@nil ascii).
    rewrite mt_cat_nil. rewrite rev_app_distr, <- app_assoc in Hk. exact Hk.
  - intros u1 w Hw Hne _. destruct u1 as [| c1 u1]; [congruence |].
    injection Hw as _ Hw. rewrite mt_cat_cons, mt_str.
    change (T "');") with ("'"%char :: T ");").
    rewrite (not_quote_start (T ");") u1 w _ no_quote_close Hw). reflexivity.
Qed.

Lemma not_in_app (c : ascii) (x y : text) : ~ In c x -> ~ In c y -> ~ In c (x ++ y).
Proof. intros Hx Hy H. apply in_app_or in H as [H | H]; auto. Qed.

Lemma no_nl_require : ~ In "010"%char (T " = require('").
Proof. intro H. repeat (destruct H as [H | H]; [discriminate H |]). exact H. Qed.

Lemma mt_str_app (s w : text) (k : cont) (b : text) (cs : caps) :
  mt (RStr s) k b (s ++ w) cs = k (rev s ++ b) w cs.
Proof.
  rewrite mt_str, starts_with_self. f_equal.
  induction s as [| c s IH]; [reflexivity | exact IH].
Qed.

(** A suffix of [z ++ ');'] after a prefix either still ends in the whole
    [');'] or starts inside it. *)
Lemma req_suffix (pre w y : text) :
  pre ++ w = y ++ T "');" ->
  (exists z, w = z ++ T "');" /\ y = pre ++ z) \/
  (exists v, T "');" = v ++ w /\ v <> []).
Proof.
  intro H. destruct (app_eq_app _ _ _ _ H) as (l & [[H1 H2] | [H1 H2]]).
  - destruct l as [| c l].
    + left. exists []. rewrite app_nil_r in H1. cbn [app] in H2.
      rewrite H1, H2, app_nil_r. split; reflexivity.
    + right. exists (c :: l). split; [exact H2 | discriminate].
  - left. exists l. split; [exact H2 | exact H1].
Qed.

(** Body of group 2 of the rule, after [const ]: whatever split the two
    greedy stars settle on, the match runs to the end of the line. *)
Lemma req_body (k : cont) (b x m : text) (cs : caps) (R : mres) :
  ~ In "010"%char x -> ~ In "010"%char m ->
  k (rev (x ++ T " = require('" ++ m ++ T "');") ++ b) [] cs = Some R ->
  mt (RCat [RStar is_dot; RStr (T " = require('"); RStar is_dot; RStr (T "');")]) k b
    (x ++ T " = require('" ++ m ++ T "');") cs = Some R.
Proof.
  intros Hx Hm Hk. rewrite mt_cat_cons, mt_star.
  set (line := x ++ T " = require('" ++ m ++ T "');") in *.
  assert (Hy : ~ In "010"%char (x ++ T " = require('" ++ m))
    by (apply not_in_app; [exact Hx | apply not_in_app; [exact no_nl_require | exact Hm]]).
  apply star_try_uniform.
  - intros u w Hs _. rewrite mt_cat_cons, mt_str.
    destruct (starts_with (T " = require('") w) eqn:Hw; [| left; reflexivity].
    apply starts_with_split in Hw.
    set (w' := skipn (List.length (T " = require('")) w) in *. clearbody w'. subst w.
    assert (Hl : (u ++ T " = require('") ++ w' = (x ++ T " = require('" ++ m) ++ T "');")
      by (rewrite <- !app_assoc; exact (eq_sym Hs)).
    destruct (req_suffix _ _ _ Hl) as [(z & -> & Hz) | (v & Hv & Hne)].
    + right. apply req_tail.
      * intro Hin. apply Hy. rewrite Hz. apply in_or_app. right. exact Hin.
      * rewrite <- Hk, Hs, !rev_app_distr, <- !app_assoc. reflexivity.
    + left. destruct v as [| c v]; [congruence |].
      change (T "');") with ("'"%char :: T ");") in Hv. injection Hv as _ Hv.
      rewrite mt_cat_cons, mt_star.
      destruct (star_try _ _ _ w' cs) as [r |] eqn:E; [exfalso | reflexivity].
      destruct (star_try_spec _ _ _ _ _ _ E) as (u2 & w2 & Hw2 & _ & Hk2).
      rewrite mt_cat_cons, mt_str in Hk2.
      change (T "');") with ("'"%char :: T ");") in Hk2.
      rewrite (not_quote_start (T ");") (v ++ u2) w2 _ no_quote_close) in Hk2;
        [discriminate | rewrite <- app_assoc, <- Hw2; exact Hv].
  - exists x, (T " = require('" ++ m ++ T "');"). split; [reflexivity |].
    split; [exact (forallb_is_dot x Hx) |].
    rewrite mt_cat_cons, mt_str_app. apply req_tail; [exact Hm |].
    rewrite <- Hk. f_equal. unfold line. rewrite !rev_app_distr, <- !app_assoc. reflexivity.
Qed.

(** The whole match of the rule on a [require] line. *)
Lemma req_match (b ind x m : text) :
  forallb is_sp_tab ind = true -> ~ In "010"%char x -> ~ In "010"%char m ->
  re_match FixLintAuto.req_re b (ind ++ T "const " ++ x ++ T " = require('" ++ m ++ T "');") =
  Some (rev (ind ++ T "const " ++ x ++ T " = require('" ++ m ++ T "');") ++ b, [],
        [(2, T "const " ++ x ++ T " = require('" ++ m ++ T "');"); (1, ind)]).
Proof.
  intros Hi Hx Hm. unfold re_match, FixLintAuto.req_re.
  set (line := x ++ T " = require('" ++ m ++ T "');").
  rewrite mt_cat_cons, mt_group, mt_star. apply star_try_longest; [exact Hi | |].
  - rewrite mt_cat_cons, mt_group, mt_cat_cons, mt_str_app.
    apply req_body; [exact Hx | exact Hm |].
    rewrite mt_cat_nil. unfold kdone.
    cbn [List.length]. rewrite Nat.sub_0_r, (firstn_all (T "const " ++ line)).
    rewrite (length_app ind), Nat.add_sub, firstn_app, firstn_all, Nat.sub_diag, firstn_O, app_nil_r.
    unfold line. rewrite !rev_app_distr, <- !app_assoc. reflexivity.
  - intros [| c u1] w Hw Hne Hu1; [congruence |].
    injection Hw as Hc _. subst c. discriminate.
Qed.

Lemma req_sub_nil (f : nat) (b : text) :
  sub_loop FixLintAuto.req_re FixLintAuto.req_tpl f b [] = [].
Proof. destruct f; reflexivity. Qed.

(** One pass of the rule over a single [require] line. *)
Lemma req_sub_line (f : nat) (b ind x m : text) :
  forallb is_sp_tab ind = true -> ~ In "010"%char x -> ~ In "010"%char m ->
  sub_loop FixLintAuto.req_re FixLintAuto.req_tpl (S f) b
    (ind ++ T "const " ++ x ++ T " = require('" ++ m ++ T "');") =
  ind ++ FixLintAuto.directive ++ NL ++ ind ++ T "const " ++ x ++ T " = require('" ++ m ++ T "');".
Proof.
  intros Hi Hx Hm. cbn [sub_loop]. rewrite (req_match b ind x m Hi Hx Hm).
  replace (List.length (@nil ascii) <? _) with true
    by (symmetry; apply Nat.ltb_lt; rewrite !length_app; simpl; lia).
  rewrite req_sub_nil, app_nil_r.
  cbn [expand flat_map FixLintAuto.req_tpl group find fst Nat.eqb]. rewrite app_nil_r. reflexivity.
Qed.

Lemma sub_loop_skip (r : regex) (tpl : list piece) (rest : text) (f : nat) :
  forall w b, no_match_along r b w rest ->
  sub_loop r tpl (List.length w + f) b (w ++ rest) = w ++ sub_loop r tpl f (rev w ++ b) rest.
Proof.
  induction w as [| c w IH]; intros b H; [reflexivity |].
  destruct H as [H1 H2]. cbn [List.length Nat.add app sub_loop]. rewrite H1.
  rewrite (IH (c :: b) H2). cbn [rev]. rewrite <- app_assoc. reflexivity.
Qed.

(** Before a character that is neither a blank nor [c], the rule cannot
    start inside a run of blanks. *)
Lemma req_no_match_blanks (b s rest : text) (c : ascii) :
  forallb is_sp_tab s = true -> is_sp_tab c = false -> c <> "c"%char ->
  re_match FixLintAuto.req_re b (s ++ c :: rest) = None.
Proof.
  intros Hs Hc Hcc. unfold re_match, FixLintAuto.req_re.
  rewrite mt_cat_cons, mt_group, mt_star.
  destruct (star_try _ _ _ _ _) as [R |] eqn:E; [exfalso | reflexivity].
  destruct (star_try_spec _ _ _ _ _ _ E) as (u & w & Hw & Hu & Hk).
  rewrite mt_cat_cons, mt_group, mt_cat_cons, mt_str in Hk.
  destruct (starts_with (T "const ") w) eqn:Hst; [| discriminate].
  change (T "const ") with ("c"%char :: T "onst ") in Hst.
  assert (Hw0 : w = c :: rest -> False).
  { intros ->. cbn [starts_with] in Hst. destruct (Ascii.eqb "c" c) eqn:Ec; [| discriminate].
    apply Ascii.eqb_eq in Ec. congruence. }
  destruct (app_eq_app _ _ _ _ Hw) as (l & [[H1 H2] | [H1 H2]]).
  - destruct l as [| d l]; [exact (Hw0 H2) |]. subst w.
    rewrite H1, forallb_app in Hs. apply andb_prop in Hs as [_ Hs].
    cbn [forallb] in Hs. apply andb_prop in Hs as [Hd _].
    cbn [app starts_with] in Hst. destruct (Ascii.eqb "c" d) eqn:Ec; [| discriminate].
    apply Ascii.eqb_eq in Ec. subst d. discriminate.
  - destruct l as [| d l]; [exact (Hw0 (eq_sym H2)) |].
    injection H2 as <- _. rewrite H1, forallb_app in Hu. apply andb_prop in Hu as [_ Hu].
    cbn [forallb] in Hu. rewrite Hc in Hu. discriminate.
Qed.

Lemma req_skip_blanks (ind y : text) :
  forallb is_sp_tab ind = true ->
  forall b, no_match_along FixLintAuto.req_re b ind ("/"%char :: y).
Proof.
  induction ind as [| c ind IH]; intros Hi b; [exact I |].
  cbn [forallb] in Hi. apply andb_prop in Hi as [Hc Hi]. split.
  - exact (req_no_match_blanks b (c :: ind) y "/" ltac:(cbn [forallb]; rewrite Hc, Hi; reflexivity)
             eq_refl ltac:(discriminate)).
  - exact (IH Hi (c :: b)).
Qed.

Lemma req_skip_directive (b L : text) :
  no_match_along FixLintAuto.req_re b (FixLintAuto.directive ++ NL) L.
Proof. vm_compute. repeat split. Qed.

Lemma no_match_along_app (r : regex) (rest : text) :
  forall w1 w2 b, no_match_along r b w1 (w2 ++ rest) -> no_match_along r (rev w1 ++ b) w2 rest ->
  no_match_along r b (w1 ++ w2) rest.
Proof.
  induction w1 as [| c w1 IH]; intros w2 b H1 H2; [exact H2 |].
  destruct H1 as [H H1]. split.
  - rewrite <- app_assoc. exact H.
  - apply IH; [exact H1 |]. cbn [rev] in H2. rewrite <- app_assoc in H2. exact H2.
Qed.

(** C1: the dynamic-require rule has no guard against a directive already
    in place. On a line [<ind>const <x> = require('<m>');] (blanks [ind],
    no newline in [x] and [m]) one pass inserts [<ind>], the directive and
    a newline before the line; a second pass inserts a second directive,
    so the result of two passes differs from the result of one. *)
Lemma require_rule_not_idempotent (ind x m : text) :
  forallb is_sp_tab ind = true -> ~ In "010"%char x -> ~ In "010"%char m ->
  let L := ind ++ T "const " ++ x ++ T " = require('" ++ m ++ T "');" in
  FixLintAuto.fix_require L = ind ++ FixLintAuto.directive ++ NL ++ L /\
  FixLintAuto.fix_require (FixLintAuto.fix_require L) =
    ind ++ FixLintAuto.directive ++ NL ++ ind ++ FixLintAuto.directive ++ NL ++ L /\
  FixLintAuto.fix_require (FixLintAuto.fix_require L) <> FixLintAuto.fix_require L.
Proof.
  intros Hi Hx Hm L.
  assert (H1 : FixLintAuto.fix_require L = ind ++ FixLintAuto.directive ++ NL ++ L)
    by (unfold FixLintAuto.fix_require, re_sub; exact (req_sub_line _ [] ind x m Hi Hx Hm)).
  assert (H2 : FixLintAuto.fix_require (FixLintAuto.fix_require L) =
    ind ++ FixLintAuto.directive ++ NL ++ ind ++ FixLintAuto.directive ++ NL ++ L).
  { rewrite H1. unfold FixLintAuto.fix_require, re_sub.
    set (w := ind ++ FixLintAuto.directive ++ NL).
    replace (ind ++ FixLintAuto.directive ++ NL ++ L) with (w ++ L)
      by (unfold w; rewrite <- !app_assoc; reflexivity).
    replace (S (List.length (w ++ L))) with (List.length w + S (List.length L))
      by (rewrite length_app; lia).
    rewrite sub_loop_skip.
    - unfold L at 2. rewrite (req_sub_line _ _ ind x m Hi Hx Hm).
      unfold w, L. rewrite <- !app_assoc. reflexivity.
    - unfold w. apply no_match_along_app.
      + change FixLintAuto.directive with ("/"%char :: T "/ eslint-disable-next-line @typescript-eslint/no-var-requires").
        apply req_skip_blanks. exact Hi.
      + apply req_skip_directive. }
  split; [exact H1 | split; [exact H2 |]].
  rewrite H2, H1. intro E. apply (f_equal (@List.length ascii)) in E.
  rewrite !length_app in E. change (List.length FixLintAuto.directive) with 62 in E. lia.
Qed.

Lemma require_rule_not_idempotent_witness :
  (forallb is_sp_tab (T "  ") = true /\ ~ In "010"%char (T "fs") /\ ~ In "010"%char (T "fs")) /\
  FixLintAuto.fix_require (T "  const fs = require('fs');") =
    T "  " ++ FixLintAuto.directive ++ NL ++ T "  const fs = require('fs');".
Proof.
  assert (Hi : forallb is_sp_tab (T "  ") = true) by reflexivity.
  assert (Hn : ~ In "010"%char (T "fs"))
    by (intros [H | [H | []]]; discriminate).
  split; [split; [exact Hi | split; exact Hn] |].
  exact (proj1 (require_rule_not_idempotent (T "  ") (T "fs") (T "fs") Hi Hn Hn)).
Defined.

(** * Further properties of the scripts *)

(** ** Substrings and the literals a pattern needs *)

Lemma contains_split (x a : text) : contains x a = true -> exists v r, a = v ++ x ++ r.
Proof.
  induction a as [| c a IH]; intro H; cbn [contains] in H.
  - rewrite orb_false_r in H. exists [], (skipn (List.length x) []).
    exact (starts_with_split x [] H).
  - apply orb_prop in H as [H | H].
    + exists [], (skipn (List.length x) (c :: a)). exact (starts_with_split x _ H).
    + destruct (IH H) as (v & r & ->). exists (c :: v), r. reflexivity.
Qed.

Lemma contains_intro (v x r : text) : contains x (v ++ x ++ r) = true.
Proof.
  apply contains_app_l. destruct x as [| c x]; [destruct r; reflexivity |].
  cbn [app contains].
  change (starts_with (c :: x) (c :: x ++ r)) with (starts_with (c :: x) ((c :: x) ++ r)).
  rewrite starts_with_self. reflexivity.
Qed.

Lemma contains_infix (u x y a : text) : contains (u ++ x ++ y) a = true -> contains x a = true.
Proof.
  intro H. destruct (contains_split _ _ H) as (v & r & ->).
  replace (v ++ (u ++ x ++ y) ++ r) with ((v ++ u) ++ x ++ (y ++ r))
    by (rewrite <- !app_assoc; reflexivity).
  apply contains_intro.
Qed.

Lemma contains_tail (x : text) (c : ascii) (t : text) :
  contains x (c :: t) = false -> contains x t = false.
Proof. cbn [contains]. intro H. apply orb_false_elim in H as [_ H]. exact H. Qed.


Lemma needs_str (s : text) : needs s (RStr s).
Proof.
  intros k b a cs res H. rewrite mt_str in H.
  destruct (starts_with s a) eqn:E; [| discriminate].
  rewrite (starts_with_split s a E).
  exact (contains_intro [] s _).
Qed.

Lemma needs_infix (u s y : text) : needs s (RStr (u ++ s ++ y)).
Proof. intros k b a cs res H. exact (contains_infix u s y a (needs_str _ _ _ _ _ _ H)). Qed.

Lemma needs_group (s : text) (n : nat) (r : regex) : needs s r -> needs s (RGroup n r).
Proof. intros Hr k b a cs res H. rewrite mt_group in H. exact (Hr _ _ _ _ _ H). Qed.

Lemma needs_cat (s : text) (pre : list regex) (r : regex) (post : list regex) :
  needs s r -> needs s (RCat (pre ++ r :: post)).
Proof.
  intro Hr. induction pre as [| r0 pre IH]; intros k b a cs res H.
  - cbn [app] in H. rewrite mt_cat_cons in H. exact (Hr _ _ _ _ _ H).
  - cbn [app] in H. rewrite mt_cat_cons in H.
    destruct (mt_from _ _ _ _ _ _ H) as (b1 & a1 & cs1 & u & H1 & ->).
    apply contains_app_l. exact (IH _ _ _ _ _ H1).
Qed.

(** [re.sub] with a pattern that needs [s] leaves a text without [s] as it is. *)
Lemma sub_loop_needs (s : text) (r : regex) (tpl : list piece) :
  needs s r -> forall f b a, contains s a = false -> sub_loop r tpl f b a = a.
Proof.
  intros Hr f. induction f as [| f IH]; intros b a Ha; [reflexivity |].
  cbn [sub_loop]. destruct (re_match r b a) as [[[b' a'] cs] |] eqn:E.
  - exfalso. unfold re_match in E. rewrite (Hr _ _ _ _ _ E) in Ha. discriminate.
  - destruct a as [| c t]; [reflexivity |]. rewrite (IH _ _ (contains_tail _ _ _ Ha)).
    reflexivity.
Qed.

Lemma re_sub_needs (s : text) (r : regex) (tpl : list piece) (a : text) :
  needs s r -> contains s a = false -> re_sub r tpl a = a.
Proof. intros Hr Ha. exact (sub_loop_needs s r tpl Hr _ _ _ Ha). Qed.

Lemma needs_param : needs (T "any") FixLintComprehensive.param_re.
Proof.
  exact (needs_cat (T "any") [RBound; RGroup 1 (RPlus is_word); RStar is_space; RChar ":";
                              RStar is_space] _ [RBound; FixLintComprehensive.no_brackets]
           (needs_str _)).
Qed.

Lemma needs_return : needs (T "any") FixLintComprehensive.return_re.
Proof.
  exact (needs_cat (T "any") [RStr (T "):"); RStar is_space] _
           [RBound; FixLintComprehensive.no_brackets] (needs_str _)).
Qed.

Lemma needs_alias : needs (T "any") FixLintComprehensive.alias_re.
Proof.
  exact (needs_cat (T "any") [RGroup 1 (RCat [RStr (T "type"); RPlus is_space; RPlus is_word;
                                              RStar is_space; RChar "="; RStar is_space])]
           _ [RBound] (needs_str _)).
Qed.

Lemma needs_generic : needs (T "any") FixLintComprehensive.generic_re.
Proof. exact (needs_infix (T "<") (T "any") (T ">")). Qed.

Lemma needs_prop : needs (T "any") FixLintComprehensive.prop_re.
Proof.
  exact (needs_cat (T "any") [RGroup 1 (RCat [RPlus is_space; RPlus is_word; ROpt (is_char "?");
                                              RStar is_space; RChar ":"; RStar is_space])]
           _ [RBound; FixLintComprehensive.no_brackets] (needs_str _)).
Qed.

Lemma needs_auto_any : needs (T "any") FixLintAuto.any_re.
Proof.
  exact (needs_cat (T "any") [RBound; RGroup 1 (RPlus is_word); RStar is_space; RChar ":";
                              RStar is_space] _ [RBound] (needs_str _)).
Qed.

Lemma needs_auto_ts : needs (T "@ts-ignore") FixLintAuto.ts_re.
Proof.
  exact (needs_cat (T "@ts-ignore") [RStr (T "//"); RStar is_space] _ [RBound] (needs_str _)).
Qed.

Lemma needs_auto_req : needs (T " = require('") FixLintAuto.req_re.
Proof.
  exact (needs_cat (T " = require('") [RGroup 1 (RStar is_sp_tab)] _ []
           (needs_group _ 2 _
              (needs_cat (T " = require('") [RStr (T "const "); RStar is_dot] _
                 [RStar is_dot; RStr (T "');")] (needs_str _)))).
Qed.

Lemma needs_mock : needs (T "any") (RCat [RChar ":"; RStar is_space; RStr (T "any;")]).
Proof. exact (needs_cat (T "any") [RChar ":"; RStar is_space] _ [] (needs_infix [] (T "any") (T ";"))). Qed.

Lemma needs_as : needs (T "any")
  (RCat [RChar ")"; RStar is_space; RStr (T "as"); RStar is_space; RStr (T "any;")]).
Proof.
  exact (needs_cat (T "any") [RChar ")"; RStar is_space; RStr (T "as"); RStar is_space] _ []
           (needs_infix [] (T "any") (T ";"))).
Qed.

Lemma needs_window : needs (T "any") (RStr (T "(window as any)")).
Proof. exact (needs_infix (T "(window as ") (T "any") (T ")")). Qed.

Lemma fix_file_unchanged_comp (fp : path) (c : text) (w : world) :
  files w fp = Some c -> FixLintComprehensive.fix_content c = c ->
  FixLintComprehensive.fix_file fp w = (Ok false, mkWorld (files w) (can_write w) (EvRead fp :: trace w)).
Proof.
  intros Hf Hc. unfold FixLintComprehensive.fix_file, try_except, read_text, bind, emit, ret.
  cbn [files]. rewrite Hf. cbn beta iota zeta. rewrite Hc.
  destruct (list_eq_dec ascii_dec c c) as [_ | Hn]; [reflexivity | congruence].
Qed.

Lemma fix_file_unchanged_auto (fp : path) (c : text) (w : world) :
  files w fp = Some c -> FixLintAuto.fix_content c = c ->
  FixLintAuto.fix_file fp w = (Ok false, mkWorld (files w) (can_write w) (EvRead fp :: trace w)).
Proof.
  intros Hf Hc. unfold FixLintAuto.fix_file, try_except, read_text, bind, emit, ret.
  cbn [files]. rewrite Hf. cbn beta iota zeta. rewrite Hc.
  destruct (list_eq_dec ascii_dec c c) as [_ | Hn]; [reflexivity | congruence].
Qed.

(** The [any] rules of [fix-lint-comprehensive.py] leave a text in which
    [any] does not occur as it is, so [fix_file] only reads such a file. *)
Theorem comprehensive_any_types_need_any (c : text) :
  contains (T "any") c = false ->
  FixLintComprehensive.fix_any_types c = c /\
  (forall fp w, files w fp = Some c ->
     FixLintComprehensive.fix_file fp w =
     (Ok false, mkWorld (files w) (can_write w) (EvRead fp :: trace w))).
Proof.
  intro Hc.
  assert (H : FixLintComprehensive.fix_any_types c = c).
  { unfold FixLintComprehensive.fix_any_types.
    rewrite (re_sub_needs _ _ _ c needs_param Hc), (re_sub_needs _ _ _ c needs_return Hc),
      (re_sub_needs _ _ _ c needs_alias Hc), (re_sub_needs _ _ _ c needs_generic Hc),
      (re_sub_needs _ _ _ c needs_prop Hc).
    reflexivity. }
  split; [exact H |]. intros fp w Hf. exact (fix_file_unchanged_comp fp c w Hf H).
Qed.

Lemma comprehensive_any_types_need_any_witness :
  contains (T "any") (T "let x: number = 1;") = false /\
  FixLintComprehensive.fix_any_types (T "let x: number = 1;") = T "let x: number = 1;".
Proof.
  assert (H : contains (T "any") (T "let x: number = 1;") = false) by reflexivity.
  split; [exact H | exact (proj1 (comprehensive_any_types_need_any _ H))].
Defined.

(** The rules of [fix-lint-auto.py] leave a text with no [any], no
    [@ts-ignore] and no [ = require('] as it is, so [fix_file] only reads
    such a file. *)
Theorem auto_rules_need_triggers (c : text) :
  contains (T "any") c = false -> contains (T "@ts-ignore") c = false ->
  contains (T " = require('") c = false ->
  FixLintAuto.fix_content c = c /\
  (forall fp w, files w fp = Some c ->
     FixLintAuto.fix_file fp w = (Ok false, mkWorld (files w) (can_write w) (EvRead fp :: trace w))).
Proof.
  intros Ha Ht Hr.
  assert (H : FixLintAuto.fix_content c = c).
  { unfold FixLintAuto.fix_content, FixLintAuto.fix_require, FixLintAuto.fix_ts_ignore,
      FixLintAuto.fix_any.
    rewrite (re_sub_needs _ _ _ c needs_auto_any Ha), (re_sub_needs _ _ _ c needs_auto_ts Ht),
      (re_sub_needs _ _ _ c needs_auto_req Hr).
    reflexivity. }
  split; [exact H |]. intros fp w Hf. exact (fix_file_unchanged_auto fp c w Hf H).
Qed.

Lemma auto_rules_need_triggers_witness :
  FixLintAuto.fix_content (T "const x = 1;") = T "const x = 1;".
Proof. exact (proj1 (auto_rules_need_triggers (T "const x = 1;") eq_refl eq_refl eq_refl)). Defined.

Lemma apply_patterns_needs (pats : list (regex * list piece * (text -> bool))) (c : text) :
  Forall (fun p => needs (T "any") (fst (fst p))) pats -> contains (T "any") c = false ->
  forall m, FixLint.apply_patterns pats c m = (c, m).
Proof.
  intros Hp Hc. induction Hp as [| [[r tpl] cond] pats Hr _ IH]; intro m; [reflexivity |].
  cbn [FixLint.apply_patterns]. cbn [fst] in Hr.
  destruct (cond c); [| apply IH].
  rewrite (re_sub_needs _ _ _ c Hr Hc).
  destruct (list_eq_dec ascii_dec c c) as [_ | Hn]; [apply IH | congruence].
Qed.

(** [fix_any_types] of [fix-lint.py] only reads a file in which [any] does
    not occur: it returns [False] and writes nothing. *)
Theorem fixlint_any_types_need_any (fp : path) (errors : list FixLint.lint_error)
  (c : text) (w : world) :
  files w fp = Some c -> contains (T "any") c = false ->
  FixLint.fix_any_types fp errors w =
  (Ok false, mkWorld (files w) (can_write w) (EvRead fp :: trace w)).
Proof.
  intros Hf Hc. unfold FixLint.fix_any_types, read_text, bind, emit, ret.
  cbn [files]. rewrite Hf. cbn beta iota.
  rewrite (apply_patterns_needs FixLint.any_patterns c
             ltac:(repeat constructor; [exact needs_mock | exact needs_as | exact needs_window]) Hc).
  reflexivity.
Qed.

Lemma fixlint_any_types_need_any_witness :
  files (world_of [(demo_b, T "let x = 1;")]) demo_b = Some (T "let x = 1;") /\
  contains (T "any") (T "let x = 1;") = false /\
  fst (FixLint.fix_any_types demo_b [] (world_of [(demo_b, T "let x = 1;")])) = Ok false.
Proof.
  assert (Hf : files (world_of [(demo_b, T "let x = 1;")]) demo_b = Some (T "let x = 1;"))
    by (vm_compute; reflexivity).
  assert (Hc : contains (T "any") (T "let x = 1;") = false) by reflexivity.
  split; [exact Hf | split; [exact Hc |]].
  rewrite (fixlint_any_types_need_any demo_b [] _ _ Hf Hc). reflexivity.
Defined.

(** ** [fix_case_declarations] *)

Lemma join_split (sep : ascii) (s : text) : join_on sep (split_on sep s) = s.
Proof.
  induction s as [| c s IH]; [reflexivity |]. cbn [split_on].
  destruct (Ascii.eqb c sep) eqn:E.
  - apply Ascii.eqb_eq in E. subst c.
    destruct (split_on sep s) as [| w ws] eqn:Es; [exfalso; exact (split_on_not_nil sep s Es) |].
    cbn [join_on app]. rewrite <- IH. reflexivity.
  - destruct (split_on sep s) as [| w ws] eqn:Es; [exfalso; exact (split_on_not_nil sep s Es) |].
    rewrite <- IH. destruct ws; reflexivity.
Qed.

Section CaseDeclarations.
Import FixLintComprehensive.

Lemma case_loop_no_case (lines : list text) :
  Forall (fun l => is_case l = false) lines -> case_loop lines = lines.
Proof.
  induction 1 as [| l lines Hl _ IH]; [reflexivity |]. cbn [case_loop].
  destruct lines as [| next rest]; [reflexivity |].
  rewrite Hl. cbn [andb]. rewrite IH. reflexivity.
Qed.

Lemma case_block_until (n : nat) (blk : list text) (e : text) (rest : list text) :
  Forall (fun l => ends_case l = false) blk -> ends_case e = true ->
  case_block n (blk ++ e :: rest) = blk ++ e :: (repeat " "%char n ++ T "}") :: case_loop rest.
Proof.
  intros Hb He. induction Hb as [| l blk Hl _ IH]; cbn [app case_block].
  - rewrite He. reflexivity.
  - rewrite Hl, IH. reflexivity.
Qed.

Lemma case_block_open (n : nat) (blk : list text) :
  Forall (fun l => ends_case l = false) blk -> case_block n blk = blk.
Proof.
  induction 1 as [| l blk Hl _ IH]; cbn [case_block]; [reflexivity |]. rewrite Hl, IH. reflexivity.
Qed.

End CaseDeclarations.

(** [fix_case_declarations] returns a text none of whose lines matches
    [\s*case\s+] unchanged. *)
Theorem case_declarations_no_case (content : text) :
  Forall (fun l => FixLintComprehensive.is_case l = false) (split_nl content) ->
  FixLintComprehensive.fix_case_declarations content = content.
Proof.
  intro H. unfold FixLintComprehensive.fix_case_declarations.
  rewrite (case_loop_no_case _ H). apply join_split.
Qed.

Lemma case_declarations_no_case_witness :
  FixLintComprehensive.fix_case_declarations (T "switch (a) {" ++ NL ++ T "  default: f();" ++ NL ++ T "}")
  = T "switch (a) {" ++ NL ++ T "  default: f();" ++ NL ++ T "}".
Proof.
  apply case_declarations_no_case. vm_compute. repeat constructor.
Defined.

(** A [case] line followed by a declaration opens a block: [ {] is appended
    to the [case] line, the lines are copied from the declaration up to and
    including the first one containing [break] or [return] (which may be the
    declaration itself), and a line of as many spaces as the [case] line is
    indented, then [}], closes the block; the scan resumes after it. *)
Theorem case_block_wrapped (c : text) (mid : list text) (e : text) (rest : list text) :
  FixLintComprehensive.is_case c = true ->
  FixLintComprehensive.is_decl (hd e mid) = true ->
  Forall (fun l => FixLintComprehensive.ends_case l = false) mid ->
  FixLintComprehensive.ends_case e = true ->
  FixLintComprehensive.case_loop (c :: mid ++ e :: rest) =
  (c ++ T " {") :: mid ++ e ::
    (repeat " "%char (FixLintComprehensive.indent_of c) ++ T "}") ::
    FixLintComprehensive.case_loop rest.
Proof.
  intros Hc Hd Hb He.
  destruct mid as [| d mid]; cbn [hd app] in Hd |- *;
    cbn [FixLintComprehensive.case_loop]; rewrite Hc, Hd; cbn [andb];
    f_equal; exact (case_block_until _ _ e rest Hb He).
Qed.

Lemma case_block_wrapped_witness :
  FixLintComprehensive.case_loop
    [T "  case 1:"; T "    const x = f(); break;"; T "  default:"] =
  [T "  case 1: {"; T "    const x = f(); break;"; T "  }"; T "  default:"].
Proof.
  refine (eq_trans (case_block_wrapped (T "  case 1:") [] (T "    const x = f(); break;")
                      [T "  default:"] _ _ _ _) _).
  - vm_compute. reflexivity.
  - vm_compute. reflexivity.
  - constructor.
  - vm_compute. reflexivity.
  - vm_compute. reflexivity.
Defined.

(** When no line after a [case] line and its declaration contains [break]
    or [return], the block opened by [ {] is never closed. *)
Theorem case_block_unclosed (c d : text) (mid : list text) :
  FixLintComprehensive.is_case c = true -> FixLintComprehensive.is_decl d = true ->
  Forall (fun l => FixLintComprehensive.ends_case l = false) (d :: mid) ->
  FixLintComprehensive.case_loop (c :: d :: mid) = (c ++ T " {") :: d :: mid.
Proof.
  intros Hc Hd Hb. cbn [FixLintComprehensive.case_loop]. rewrite Hc, Hd. cbn [andb].
  f_equal. exact (case_block_open _ _ Hb).
Qed.

Lemma case_block_unclosed_witness :
  FixLintComprehensive.case_loop [T "case 2:"; T "  let y = 2;"; T "  f(y);"] =
  [T "case 2: {"; T "  let y = 2;"; T "  f(y);"].
Proof.
  apply case_block_unclosed.
  - vm_compute. reflexivity.
  - vm_compute. reflexivity.
  - vm_compute. repeat constructor.
Defined.

(** ** The lint-output parsers, further *)

Section ComprehensiveParser2.
Import FixLintComprehensive.

Lemma parse_lines_ok (lines : list text) :
  forall cur d, cursor_ok cur d -> exists d', parse_lines lines cur d = Ok d'.
Proof.
  intros cur d Hok.
  destruct (parse_lines_prefix lines [] cur d Hok) as (cur' & d' & _ & E).
  rewrite app_nil_r in E. rewrite E. exists d'. reflexivity.
Qed.

Lemma parse_lines_filter (lines : list text) :
  forall cur d, parse_lines lines cur d =
                parse_lines (filter (fun l => negb (is_excluded_line l)) lines) cur d.
Proof.
  induction lines as [| l lines IH]; intros cur d; [reflexivity |].
  cbn [parse_lines filter]. destruct (is_excluded_line l) eqn:E; cbn [negb]; [apply IH |].
  cbn [parse_lines]. rewrite E. destruct (is_path_line l); [apply IH |].
  destruct cur as [cf |]; [| apply IH].
  destruct (truthy cf && contains (T ":") l && contains (T "error") l); [| apply IH].
  destruct (dict_get d cf); [apply IH | reflexivity].
Qed.

Lemma comp_dict_set (S : list text) (d : dict (list text)) (k : text) (v : list text) :
  comp_dict_from S d -> comp_key_from S k -> Forall (comp_entry_from S) v ->
  comp_dict_from S (dict_set d k v).
Proof.
  intros Hd Hk Hv k' v' H. destruct (list_eq_dec ascii_dec k' k) as [-> | Hn].
  - rewrite dict_get_set_eq in H. injection H as <-. auto.
  - rewrite dict_get_set_neq in H by exact Hn. exact (Hd _ _ H).
Qed.

Lemma parse_lines_from (S : list text) (lines : list text) :
  (forall L, In L lines -> In L S) ->
  forall cur d d', comp_dict_from S d -> parse_lines lines cur d = Ok d' -> comp_dict_from S d'.
Proof.
  induction lines as [| l lines IH]; intros HS cur d d' Hd E; cbn [parse_lines] in E.
  - injection E as <-. exact Hd.
  - assert (HS' : forall L, In L lines -> In L S) by (intros L HL; apply HS; right; exact HL).
    destruct (is_excluded_line l) eqn:Hx; [exact (IH HS' _ _ _ Hd E) |].
    destruct (is_path_line l) eqn:Hp.
    + refine (IH HS' _ _ _ _ E). apply comp_dict_set; [exact Hd | | constructor].
      exists l. repeat split; auto. apply HS. left. reflexivity.
    + destruct cur as [cf |]; [| exact (IH HS' _ _ _ Hd E)].
      destruct (truthy cf && contains (T ":") l && contains (T "error") l) eqn:Ht;
        [| exact (IH HS' _ _ _ Hd E)].
      destruct (dict_get d cf) as [l0 |] eqn:Hg; [| discriminate E].
      refine (IH HS' _ _ _ _ E). destruct (Hd _ _ Hg) as [Hk Hv].
      apply comp_dict_set; [exact Hd | exact Hk |].
      apply Forall_app. split; [exact Hv |]. constructor; [| constructor].
      apply andb_prop in Ht as [Ht He]. apply andb_prop in Ht as [_ Hc].
      exists l. repeat split; auto. apply HS. left. reflexivity.
Qed.

End ComprehensiveParser2.

(** Once the lint command has run, the parsing of its output in
    [get_lint_errors] of [fix-lint-comprehensive.py] never raises: it
    returns a dictionary, each key of which is the stripped text of a path
    line of the lint output (a line starting with [/], ending in [.ts] or
    [.tsx], naming no test or story file) and each entry of which is the
    stripped text of an output line, not excluded and not a path line, that
    contains [:] and [error]. *)
Theorem comprehensive_parser_total (stdout stderr : text) :
  exists d, FixLintComprehensive.get_lint_errors stdout stderr = Ok d /\
            comp_dict_from (split_nl stdout ++ split_nl stderr) d.
Proof.
  unfold FixLintComprehensive.get_lint_errors.
  destruct (parse_lines_ok (split_nl stdout ++ split_nl stderr) None []
              (fun cf H => ltac:(discriminate H))) as (d & E).
  exists d. split; [exact E |].
  refine (parse_lines_from _ _ (fun L H => H) _ _ _ _ E).
  intros k v H. discriminate H.
Qed.

(** The comprehensive parser ignores every output line containing
    [__tests__], [.test.] or [.stories.]: removing them does not change the
    result. *)
Theorem comprehensive_parser_skips_tests (stdout stderr : text) :
  FixLintComprehensive.get_lint_errors stdout stderr =
  FixLintComprehensive.parse_lines
    (filter (fun l => negb (FixLintComprehensive.is_excluded_line l))
       (split_nl stdout ++ split_nl stderr)) None [].
Proof. apply parse_lines_filter. Qed.

Lemma fixlint_parse_from (S : list text) (lines : list text) :
  (forall L, In L lines -> In L S) ->
  forall cur, (forall cf, cur = Some cf ->
                 exists P, In P S /\ starts_with (T "/Users") P = true /\ cf = strip P) ->
  Forall (fixlint_record_from S) (FixLint.parse_lines lines cur).
Proof.
  induction lines as [| l lines IH]; intros HS cur Hcur; cbn [FixLint.parse_lines];
    [constructor |].
  assert (HS' : forall L, In L lines -> In L S) by (intros L HL; apply HS; right; exact HL).
  assert (Hl : In l S) by (apply HS; left; reflexivity).
  destruct (starts_with (T "/Users") l) eqn:Hu.
  - apply IH; [exact HS' |]. intros cf [= <-]. exists l. auto.
  - destruct cur as [cf |]; [| apply IH; [exact HS' | exact Hcur]].
    destruct (truthy cf && contains (T "error") l) eqn:Ht; [| apply IH; [exact HS' | exact Hcur]].
    destruct (3 <=? List.length (split_ws (strip l))) eqn:H3; [| apply IH; [exact HS' | exact Hcur]].
    constructor; [| apply IH; [exact HS' | exact Hcur]].
    apply andb_prop in Ht as [_ He]. apply Nat.leb_le in H3.
    split; [exact (Hcur cf eq_refl) |]. cbn [FixLint.e_line FixLint.e_location]. auto.
Qed.

(** Every record of [fix-lint.py]'s parser comes from the lint output: its
    file is the stripped text of an output line starting with [/Users], its
    line is an output line not starting with [/Users] that contains [error]
    and has at least three white-space separated fields, and its location
    is the first of them. *)
Theorem fixlint_parser_records (stdout stderr : text) :
  Forall (fixlint_record_from (split_nl stdout ++ split_nl stderr))
    (FixLint.get_lint_errors stdout stderr).
Proof.
  apply fixlint_parse_from; [exact (fun L H => H) |]. intros cf H. discriminate H.
Qed.

(** ** Grouping the records of [fix-lint.py] by file *)

Lemma dict_set_keys {V} (d : dict V) (k k' : text) (v : V) :
  In k' (map fst (dict_set d k v)) -> k' = k \/ In k' (map fst d).
Proof.
  induction d as [| [k0 v0] d IH]; cbn [dict_set map fst].
  - intros [H | []]. left. symmetry. exact H.
  - destruct (list_eq_dec ascii_dec k k0) as [-> | Hn]; cbn [map fst].
    + intros [H | H]; [left; symmetry; exact H | right; right; exact H].
    + intros [H | H]; [right; left; exact H |].
      destruct (IH H) as [H' | H']; [left; exact H' | right; right; exact H'].
Qed.

Lemma dict_set_nodup {V} (d : dict V) (k : text) (v : V) :
  NoDup (map fst d) -> NoDup (map fst (dict_set d k v)).
Proof.
  induction d as [| [k0 v0] d IH]; cbn [dict_set map fst]; intro H.
  - constructor; [intros [] | constructor].
  - inversion H as [| ? ? Hn Hd]; subst.
    destruct (list_eq_dec ascii_dec k k0) as [-> | Hne]; cbn [map fst].
    + constructor; assumption.
    + constructor; [| exact (IH Hd)].
      intro Hin. destruct (dict_set_keys d k k0 v Hin) as [E | E]; [congruence | contradiction].
Qed.

Lemma group_errors_get (errors : list FixLint.lint_error) :
  forall d f, dict_get (FixLint.group_errors errors d) f =
  match filter (same_file f) errors with
  | [] => dict_get d f
  | l => Some (match dict_get d f with Some v => v | None => [] end ++ l)
  end.
Proof.
  induction errors as [| e errors IH]; intros d f; [reflexivity |].
  cbn [FixLint.group_errors filter]. rewrite IH.
  set (d1 := match dict_get d (FixLint.e_file e) with
             | Some _ => d
             | None => dict_set d (FixLint.e_file e) []
             end).
  assert (Hd1 : dict_get d1 (FixLint.e_file e) =
                Some (match dict_get d (FixLint.e_file e) with Some v => v | None => [] end)).
  { unfold d1. destruct (dict_get d (FixLint.e_file e)) eqn:E; [exact E |].
    apply dict_get_set_eq. }
  destruct (list_eq_dec ascii_dec (FixLint.e_file e) f) as [<- | Hn].
  - assert (Hs : same_file (FixLint.e_file e) e = true)
      by (unfold same_file; destruct (list_eq_dec ascii_dec (FixLint.e_file e) (FixLint.e_file e));
          [reflexivity | congruence]).
    rewrite Hs, dict_get_set_eq, Hd1.
    destruct (filter (same_file (FixLint.e_file e)) errors); [reflexivity |].
    rewrite <- app_assoc. reflexivity.
  - assert (Hf : dict_get d1 f = dict_get d f).
    { unfold d1. destruct (dict_get d (FixLint.e_file e)); [reflexivity |].
      apply dict_get_set_neq. intro E. apply Hn. symmetry. exact E. }
    assert (Hs : same_file f e = false)
      by (unfold same_file; destruct (list_eq_dec ascii_dec (FixLint.e_file e) f);
          [congruence | reflexivity]).
    rewrite Hs, dict_get_set_neq by (intro E; apply Hn; symmetry; exact E). rewrite Hf.
    reflexivity.
Qed.

Lemma group_errors_nodup (errors : list FixLint.lint_error) :
  forall d, NoDup (map fst d) -> NoDup (map fst (FixLint.group_errors errors d)).
Proof.
  induction errors as [| e errors IH]; intros d Hd; [exact Hd |].
  cbn [FixLint.group_errors]. apply IH. apply dict_set_nodup.
  destruct (dict_get d (FixLint.e_file e)); [exact Hd | apply dict_set_nodup; exact Hd].
Qed.

(** [main] of [fix-lint.py] groups the records by file exactly: each file
    appears once among the groups, and the group of a file holds the records
    about it, in their order, with none lost or added. *)
Theorem fixlint_group_errors_exact (errors : list FixLint.lint_error) :
  NoDup (map fst (FixLint.group_errors errors [])) /\
  forall f, dict_get (FixLint.group_errors errors []) f =
            match filter (same_file f) errors with [] => None | l => Some l end.
Proof.
  split; [apply group_errors_nodup; constructor |].
  intro f. rewrite group_errors_get. destruct (filter (same_file f) errors); reflexivity.
Qed.

(** ** [fix_unused_vars] of [fix-lint.py]: the reported line number *)

(** A matched record whose location does not parse raises [ValueError]; one
    reporting a line past the end of the file is skipped; one reporting a
    line number [n] with [1 - len <= n <= 0] edits the line [len + n - 1]
    (Python's negative index on [n - 1]), and one reporting [n < 1 - len]
    raises [IndexError]. An exception leaves [fix_unused_vars] before it
    writes anything. *)
Theorem unused_vars_line_number (e : FixLint.lint_error) (errors : list FixLint.lint_error)
  (lines : list text) (m : bool) :
  matched e = true ->
  let len := Z.of_nat (List.length lines) in
  (FixLint.reported_line e = None ->
     FixLint.unused_loop (e :: errors) lines m = Raise ValueError) /\
  (forall n, FixLint.reported_line e = Some n -> (len < n)%Z ->
     FixLint.unused_loop (e :: errors) lines m = FixLint.unused_loop errors lines m) /\
  (forall n, FixLint.reported_line e = Some n -> (1 - len <= n <= 0)%Z ->
     let i := Z.to_nat (len + n - 1) in
     FixLint.unused_loop (e :: errors) lines m =
     match FixLint.fix_line (FixLint.e_line e) (nth i lines []) with
     | Some new => FixLint.unused_loop errors (FixLint.set_nth lines i new) true
     | None => FixLint.unused_loop errors lines m
     end) /\
  (forall n, FixLint.reported_line e = Some n -> (n < 1 - len)%Z ->
     FixLint.unused_loop (e :: errors) lines m = Raise IndexError).
Proof.
  intros Hm. unfold matched in Hm. intro len. cbn [FixLint.unused_loop]. rewrite Hm.
  split; [intro H; rewrite H; reflexivity |].
  split; [| split].
  - intros n H Hn. rewrite H.
    replace ((n - 1 <? Z.of_nat (List.length lines))%Z) with false
      by (symmetry; apply Z.ltb_ge; unfold len in Hn; lia).
    reflexivity.
  - intros n H Hn. rewrite H.
    replace ((n - 1 <? Z.of_nat (List.length lines))%Z) with true
      by (symmetry; apply Z.ltb_lt; unfold len in Hn; lia).
    unfold FixLint.py_index.
    replace ((0 <=? n - 1)%Z) with false by (symmetry; apply Z.leb_gt; lia).
    replace ((- Z.of_nat (List.length lines) <=? n - 1)%Z) with true
      by (symmetry; apply Z.leb_le; unfold len in Hn; lia).
    replace (Z.of_nat (List.length lines) + (n - 1))%Z with (len + n - 1)%Z by (unfold len; lia).
    reflexivity.
  - intros n H Hn. rewrite H.
    replace ((n - 1 <? Z.of_nat (List.length lines))%Z) with true
      by (symmetry; apply Z.ltb_lt; unfold len in Hn; lia).
    unfold FixLint.py_index.
    replace ((0 <=? n - 1)%Z) with false by (symmetry; apply Z.leb_gt; unfold len in Hn; lia).
    replace ((- Z.of_nat (List.length lines) <=? n - 1)%Z) with false
      by (symmetry; apply Z.leb_gt; unfold len in Hn; lia).
    reflexivity.
Qed.


Lemma unused_vars_line_number_witness :
  FixLint.unused_loop [demo_zero_err] [T "import x;"; T "const { container } = r;"] false =
  Ok ([T "import x;"; T "const { _container } = r;"], true).
Proof.
  refine (eq_trans (proj1 (proj2 (proj2 (unused_vars_line_number demo_zero_err []
            [T "import x;"; T "const { container } = r;"] false eq_refl))) 0%Z _ _) _).
  - vm_compute. reflexivity.
  - vm_compute. split; discriminate.
  - vm_compute. reflexivity.
Defined.

Lemma fix_line_some (msg x y : text) :
  is_some (FixLint.fix_line msg x) = is_some (FixLint.fix_line msg y).
Proof.
  unfold FixLint.fix_line.
  destruct (contains (T "'screen' is defined but never used") msg); [reflexivity |].
  destruct (contains (T "'render' is defined but never used") msg); [reflexivity |].
  destruct (contains (T "'container' is assigned a value but never used") msg); [reflexivity |].
  destruct (contains (T "'_container' is assigned a value but never used") msg); reflexivity.
Qed.

Lemma unused_loop_modified (errors : list FixLint.lint_error) :
  forall lines modified, lines_in_range errors (List.length lines) ->
  exists lines', FixLint.unused_loop errors lines modified =
    Ok (lines', modified || existsb (fun e => matched e && is_some (FixLint.fix_line (FixLint.e_line e) [])) errors).
Proof.
  induction errors as [| e errors IH]; intros lines modified Hr.
  - exists lines. cbn. rewrite orb_false_r. reflexivity.
  - assert (Hr' : lines_in_range errors (List.length lines))
      by (intros e' He'; apply Hr; right; exact He').
    cbn [FixLint.unused_loop existsb]. unfold matched in Hr |- *.
    destruct (contains (T "no-unused-vars") (FixLint.e_line e)) eqn:Hc; cbn [andb].
    + destruct (Hr e (or_introl eq_refl) Hc) as (n & Hn & Hlo & Hhi). rewrite Hn.
      assert (Hlt : (n - 1 <? Z.of_nat (List.length lines))%Z = true) by (apply Z.ltb_lt; lia).
      rewrite Hlt. unfold FixLint.py_index.
      assert (H0 : (0 <=? n - 1)%Z = true) by (apply Z.leb_le; lia).
      rewrite H0, Hlt.
      set (i := Z.to_nat (n - 1)).
      rewrite (fix_line_some _ [] (nth i lines [])).
      destruct (FixLint.fix_line (FixLint.e_line e) (nth i lines [])) as [new |]; cbn [is_some orb].
      * assert (Hr'' : lines_in_range errors (List.length (FixLint.set_nth lines i new)))
          by (rewrite length_set_nth; exact Hr').
        destruct (IH _ true Hr'') as (lines' & E). exists lines'. rewrite E.
        rewrite orb_true_r. reflexivity.
      * exact (IH lines modified Hr').
    + exact (IH lines modified Hr').
Qed.

(** When every matched record reports a line inside the file, [fix_unused_vars]
    of [fix-lint.py] returns [True], and writes the file, exactly when some
    matched record's message is one of the four it knows, even when the
    edit leaves the line as it was. *)
Theorem unused_vars_writes_iff_known (w : world) (fp : path)
  (errors : list FixLint.lint_error) (content : text) :
  files w fp = Some content -> can_write w fp = true ->
  lines_in_range errors (List.length (split_nl content)) ->
  let b := existsb (fun e => matched e && is_some (FixLint.fix_line (FixLint.e_line e) [])) errors in
  fst (FixLint.fix_unused_vars fp errors w) = Ok b /\
  (b = false -> written_paths (trace (snd (FixLint.fix_unused_vars fp errors w))) =
                written_paths (trace w)) /\
  (b = true -> exists c, trace (snd (FixLint.fix_unused_vars fp errors w)) =
                         EvWrite fp c :: EvRead fp :: trace w).
Proof.
  intros Hf Hw Hr b.
  destruct (unused_loop_modified errors (split_nl content) false Hr) as (lines' & E).
  cbn [orb] in E. fold b in E.
  unfold FixLint.fix_unused_vars, read_text, bind, emit, ret, write_text.
  cbn [files can_write trace]. rewrite Hf. cbn beta iota. rewrite E.
  destruct b; cbn [can_write trace fst snd]; rewrite ?Hw; cbn [fst snd trace].
  - split; [reflexivity |]. split; [discriminate |]. intros _. eexists. reflexivity.
  - split; [reflexivity |]. split; [reflexivity | discriminate].
Qed.

Lemma unused_vars_writes_iff_known_witness :
  fst (FixLint.fix_unused_vars demo_a (FixLint.get_lint_errors (demo_lint_out demo_a) [])
         (world_of [(demo_a, demo_source)])) = Ok true.
Proof.
  assert (Hr : files (world_of [(demo_a, demo_source)]) demo_a = Some demo_source)
    by (vm_compute; reflexivity).
  assert (Hl : lines_in_range (FixLint.get_lint_errors (demo_lint_out demo_a) [])
                 (List.length (split_nl demo_source))).
  { intros e He _. vm_compute in He. destruct He as [<- | []].
    exists 1%Z. split; [vm_compute; reflexivity | vm_compute; split; discriminate]. }
  exact (proj1 (unused_vars_writes_iff_known _ _ _ _ Hr eq_refl Hl)).
Defined.

(** ** The whole-file scripts: the final count *)

Section WholeFileCount.
Variable F : text -> text.
Variable msg : path -> exn -> text.
Variable fix_file : path -> M bool.
Hypothesis fix_file_def : forall fp,
  fix_file fp =
  try_except
    (content <- read_text fp;;
     let new := F content in
     if list_eq_dec ascii_dec new content then ret false
     else write_text fp new;; ret true)
    (fun e => eprint (msg fp e);; ret false).
Variable glob : text -> list path.
Variable dir : path.
Variable excluded : path -> bool.

Lemma loop_files_count (rels : list path) :
  forall count w, exists n ev,
    fst (loop_files dir excluded fix_file rels count w) = Ok n /\
    trace (snd (loop_files dir excluded fix_file rels count w)) = ev ++ trace w /\
    n = count + List.length (written_paths ev).
Proof.
  induction rels as [| r rels IH]; intros count w; cbn [loop_files].
  - exists count, []. cbn. repeat split; lia.
  - destruct (excluded (join_path dir r)); [apply IH |].
    unfold bind.
    destruct (fix_file_step F msg fix_file fix_file_def (join_path dir r) w)
      as (b & w1 & Hrun & _ & Hcase).
    rewrite Hrun. cbn beta iota.
    assert (H1 : exists ev1, trace w1 = ev1 ++ trace w /\
                   List.length (written_paths ev1) = if b then 1 else 0).
    { destruct Hcase as [(-> & _ & Ht) | [(c & _ & _ & -> & _ & Ht) | (c & _ & _ & -> & _ & Ht)]];
        rewrite Ht.
      - exists [EvErr (msg (join_path dir r) (OSError (join_path dir r))); EvRead (join_path dir r)].
        split; reflexivity.
      - exists [EvRead (join_path dir r)]. split; reflexivity.
      - exists [EvWrite (join_path dir r) (F c); EvRead (join_path dir r)]. split; reflexivity. }
    destruct H1 as (ev1 & Ht1 & Hc1).
    destruct b.
    + unfold print, emit. cbn beta iota zeta.
      set (w2 := mkWorld (files w1) (can_write w1) (EvOut (T "Fixed: " ++ r) :: trace w1)).
      destruct (IH (S count) w2) as (n & ev & Hn & Ht & Hc).
      exists n, (ev ++ EvOut (T "Fixed: " ++ r) :: ev1). split; [exact Hn |]. split.
      * rewrite Ht. unfold w2. cbn [trace]. rewrite Ht1, <- app_assoc. reflexivity.
      * rewrite written_paths_app. cbn [written_paths flat_map app].
        fold (written_paths ev1). rewrite length_app, Hc1. lia.
    + destruct (IH count w1) as (n & ev & Hn & Ht & Hc).
      exists n, (ev ++ ev1). split; [exact Hn |]. split.
      * rewrite Ht, Ht1, app_assoc. reflexivity.
      * rewrite written_paths_app, length_app, Hc1. lia.
Qed.

Lemma loop_patterns_count (pats : list text) :
  forall count w, exists n ev,
    fst (loop_patterns glob dir excluded fix_file pats count w) = Ok n /\
    trace (snd (loop_patterns glob dir excluded fix_file pats count w)) = ev ++ trace w /\
    n = count + List.length (written_paths ev).
Proof.
  induction pats as [| pat pats IH]; intros count w; cbn [loop_patterns].
  - exists count, []. cbn. repeat split; lia.
  - unfold bind.
    destruct (loop_files_count (glob pat) count w) as (n1 & ev1 & Hn1 & Ht1 & Hc1).
    destruct (loop_files dir excluded fix_file (glob pat) count w) as [r1 w1].
    cbn [fst snd] in Hn1, Ht1. subst r1. cbn beta iota.
    destruct (IH n1 w1) as (n & ev2 & Hn & Ht2 & Hc2).
    exists n, (ev2 ++ ev1). split; [exact Hn |]. split.
    + rewrite Ht2, Ht1, app_assoc. reflexivity.
    + rewrite written_paths_app, length_app. lia.
Qed.

Lemma run_patterns_count (pats : list text) (w : world) :
  fst (run_patterns glob dir excluded fix_file pats w) = Ok tt /\
  exists ev, trace (snd (run_patterns glob dir excluded fix_file pats w)) =
    EvOut (NL ++ T "Total files fixed: " ++ show_nat (List.length (written_paths ev))) ::
    ev ++ trace w.
Proof.
  unfold run_patterns, bind.
  destruct (loop_patterns_count pats 0 w) as (n & ev & Hn & Ht & Hc).
  destruct (loop_patterns glob dir excluded fix_file pats 0 w) as [r1 w1].
  cbn [fst snd] in Hn, Ht. subst r1. cbn beta iota. unfold print, emit.
  split; [reflexivity |]. exists ev. cbn [snd trace]. rewrite Ht, Hc. reflexivity.
Qed.

End WholeFileCount.

(** A run of either whole-file script never raises, and the total it
    prints last, [Total files fixed: n], counts exactly the file writes
    of the run. *)
Theorem whole_file_total_counts_writes (glob : text -> list path) (dir : path) (w : world) :
  (fst (FixLintAuto.main glob dir w) = Ok tt /\
   exists ev, trace (snd (FixLintAuto.main glob dir w)) =
     EvOut (NL ++ T "Total files fixed: " ++ show_nat (List.length (written_paths ev))) ::
     ev ++ trace w) /\
  (fst (FixLintComprehensive.main glob dir w) = Ok tt /\
   exists ev, trace (snd (FixLintComprehensive.main glob dir w)) =
     EvOut (NL ++ T "Total files fixed: " ++ show_nat (List.length (written_paths ev))) ::
     ev ++ trace w).
Proof.
  split.
  - exact (run_patterns_count FixLintAuto.fix_content _ FixLintAuto.fix_file (fun fp => eq_refl)
             glob dir FixLintAuto.skip FixLintAuto.patterns w).
  - exact (run_patterns_count FixLintComprehensive.fix_content _ FixLintComprehensive.fix_file
             (fun fp => eq_refl) glob dir FixLintComprehensive.skip
             FixLintComprehensive.patterns w).
Qed.

(** ** The whole-file scripts: failed reads and writes *)

Section WholeFileFailure.
Variable F : text -> text.
Variable msg : path -> exn -> text.
Variable fix_file : path -> M bool.
Hypothesis fix_file_def : forall fp,
  fix_file fp =
  try_except
    (content <- read_text fp;;
     let new := F content in
     if list_eq_dec ascii_dec new content then ret false
     else write_text fp new;; ret true)
    (fun e => eprint (msg fp e);; ret false).

Lemma fix_file_io_error (fp : path) (w : world)
  (H : files w fp = None \/
       exists c, files w fp = Some c /\ F c <> c /\ can_write w fp = false) :
  fix_file fp w =
  (Ok false, mkWorld (files w) (can_write w)
               (EvErr (msg fp (OSError fp)) :: EvRead fp :: trace w)).
Proof.
  rewrite fix_file_def.
  unfold try_except, read_text, write_text, eprint, emit, ret, bind. cbn beta iota zeta.
  cbn [files can_write trace].
  destruct H as [Hn | (c & Hc & Hne & Hw)].
  - rewrite Hn. reflexivity.
  - rewrite Hc. destruct (list_eq_dec ascii_dec (F c) c) as [E | _]; [contradiction |].
    cbn [files can_write trace]. rewrite Hw. reflexivity.
Qed.

End WholeFileFailure.

(** [fix-lint-auto.py]'s [fix_file] on a file it cannot read, or, after a
    change, cannot open for writing ([write_text] fails before truncating
    it): the exception is caught, [Error processing <file>: <error>] goes to
    standard error, the file is left as it was, and the call returns
    [False]. *)
Theorem auto_fix_file_io_error (fp : path) (w : world)
  (H : files w fp = None \/
       exists c, files w fp = Some c /\ FixLintAuto.fix_content c <> c /\
                 can_write w fp = false) :
  FixLintAuto.fix_file fp w =
  (Ok false, mkWorld (files w) (can_write w)
               (EvErr (T "Error processing " ++ fp ++ T ": " ++ exn_msg (OSError fp)) ::
                EvRead fp :: trace w)).
Proof.
  exact (fix_file_io_error FixLintAuto.fix_content
           (fun fp e => T "Error processing " ++ fp ++ T ": " ++ exn_msg e)
           FixLintAuto.fix_file (fun fp => eq_refl) fp w H).
Qed.

Lemma auto_fix_file_io_error_witness :
  let w := mkWorld (fun p => if list_eq_dec ascii_dec p (T "a.ts") then Some (T "x: any") else None)
                   (fun _ => false) [] in
  (exists c, files w (T "a.ts") = Some c /\ FixLintAuto.fix_content c <> c /\
             can_write w (T "a.ts") = false) /\
  FixLintAuto.fix_file (T "a.ts") w =
  (Ok false, mkWorld (files w) (can_write w)
               (EvErr (T "Error processing " ++ T "a.ts" ++ T ": " ++ exn_msg (OSError (T "a.ts"))) ::
                EvRead (T "a.ts") :: trace w)).
Proof.
  intro w.
  assert (Hx : exists c, files w (T "a.ts") = Some c /\ FixLintAuto.fix_content c <> c /\
             can_write w (T "a.ts") = false).
  { exists (T "x: any"). split; [reflexivity |]. split; [| reflexivity].
    vm_compute. discriminate. }
  split; [exact Hx |].
  exact (auto_fix_file_io_error (T "a.ts") w (or_intror Hx)).
Defined.

(** [fix-lint-comprehensive.py]'s [fix_file] on a file it cannot read, or,
    after a change, cannot open for writing ([write_text] fails before
    truncating it): the exception is caught, [Error fixing <file>: <error>]
    goes to standard error, the file is left as it was, and the call returns
    [False]. *)
Theorem comprehensive_fix_file_io_error (fp : path) (w : world)
  (H : files w fp = None \/
       exists c, files w fp = Some c /\ FixLintComprehensive.fix_content c <> c /\
                 can_write w fp = false) :
  FixLintComprehensive.fix_file fp w =
  (Ok false, mkWorld (files w) (can_write w)
               (EvErr (T "Error fixing " ++ fp ++ T ": " ++ exn_msg (OSError fp)) ::
                EvRead fp :: trace w)).
Proof.
  exact (fix_file_io_error FixLintComprehensive.fix_content
           (fun fp e => T "Error fixing " ++ fp ++ T ": " ++ exn_msg e)
           FixLintComprehensive.fix_file (fun fp => eq_refl) fp w H).
Qed.

Lemma comprehensive_fix_file_io_error_witness :
  let w := mkWorld (fun _ => None) (fun _ => true) [] in
  files w (T "a.ts") = None /\
  FixLintComprehensive.fix_file (T "a.ts") w =
  (Ok false, mkWorld (files w) (can_write w)
               (EvErr (T "Error fixing " ++ T "a.ts" ++ T ": " ++ exn_msg (OSError (T "a.ts"))) ::
                EvRead (T "a.ts") :: trace w)).
Proof.
  intro w. split; [reflexivity |].
  exact (comprehensive_fix_file_io_error (T "a.ts") w (or_introl eq_refl)).
Defined.

(** ** [fix-lint.py]: the count printed by [main] *)

Lemma fix_unused_vars_quiet (fp : path) (es : list FixLint.lint_error) (w : world) :
  exists ev, trace (snd (FixLint.fix_unused_vars fp es w)) = ev ++ trace w /\
             out_lines ev = [].
Proof.
  unfold FixLint.fix_unused_vars, read_text, write_text, emit, ret, raise, bind.
  cbn beta iota zeta. cbn [files trace can_write].
  destruct (files w fp) as [c |].
  - destruct (FixLint.unused_loop es (split_nl c) false) as [[lines m] | e].
    + destruct m.
      * cbn [files trace can_write]. destruct (can_write w fp).
        -- exists [EvWrite fp (join_nl lines); EvRead fp]. split; reflexivity.
        -- exists [EvRead fp]. split; reflexivity.
      * exists [EvRead fp]. split; reflexivity.
    + exists [EvRead fp]. split; reflexivity.
  - exists [EvRead fp]. split; reflexivity.
Qed.

Lemma fix_any_types_quiet (fp : path) (es : list FixLint.lint_error) (w : world) :
  exists ev, trace (snd (FixLint.fix_any_types fp es w)) = ev ++ trace w /\
             out_lines ev = [].
Proof.
  unfold FixLint.fix_any_types, read_text, write_text, emit, ret, bind.
  cbn beta iota zeta. cbn [files trace can_write].
  destruct (files w fp) as [c |].
  - destruct (FixLint.apply_patterns FixLint.any_patterns c false) as [c' m].
    destruct m.
    + cbn [files trace can_write]. destruct (can_write w fp).
      * exists [EvWrite fp c'; EvRead fp]. split; reflexivity.
      * exists [EvRead fp]. split; reflexivity.
    + exists [EvRead fp]. split; reflexivity.
  - exists [EvRead fp]. split; reflexivity.
Qed.

Lemma out_lines_app (l1 l2 : list event) :
  out_lines (l1 ++ l2) = out_lines l1 ++ out_lines l2.
Proof. unfold out_lines. apply flat_map_app. Qed.

Lemma bind_ok {A B} (m : M A) (k : A -> M B) (w w' : world) (x : A) :
  m w = (Ok x, w') -> bind m k w = k x w'.
Proof. intros H. unfold bind. rewrite H. reflexivity. Qed.

Lemma bind_raise {A B} (m : M A) (k : A -> M B) (w w' : world) (e : exn) :
  m w = (Raise e, w') -> bind m k w = (Raise e, w').
Proof. intros H. unfold bind. rewrite H. reflexivity. Qed.

Lemma fix_groups_count (groups : dict (list FixLint.lint_error)) :
  forall count w n, fst (FixLint.fix_groups groups count w) = Ok n ->
  exists ev, trace (snd (FixLint.fix_groups groups count w)) = ev ++ trace w /\
    n = count + List.length (out_lines ev) /\ Forall fixlint_fixed_msg (out_lines ev).
Proof.
  induction groups as [| [fp es] groups IH]; intros count w n Hr;
    cbn [FixLint.fix_groups] in *.
  - unfold ret in *. cbn in Hr. injection Hr as <-. exists []. cbn. auto.
  - destruct (fix_unused_vars_quiet fp es w) as (ev1 & Ht1 & Ho1).
    destruct (FixLint.fix_unused_vars fp es w) as [[u | e] w1] eqn:E1; cbn [snd] in Ht1;
      [| rewrite (bind_raise _ _ _ _ _ E1) in Hr; discriminate].
    rewrite (bind_ok _ _ _ _ _ E1) in *.
    assert (H1 : exists c1 ev2,
      (if u then print (T "Fixed unused vars in " ++ basename fp);; ret (S count)
       else ret count) w1 =
      (Ok c1, mkWorld (files w1) (can_write w1) (ev2 ++ trace w1)) /\
      c1 = count + List.length (out_lines ev2) /\ Forall fixlint_fixed_msg (out_lines ev2)).
    { destruct u.
      - exists (S count), [EvOut (T "Fixed unused vars in " ++ basename fp)].
        split; [reflexivity |]. split; [cbn; lia |].
        constructor; [exists fp; left; reflexivity | constructor].
      - exists count, []. split; [destruct w1; reflexivity |]. cbn. split; [lia | constructor]. }
    destruct H1 as (c1 & ev2 & E2 & Hc1 & Hf2).
    rewrite (bind_ok _ _ _ _ _ E2) in *.
    set (w2 := mkWorld (files w1) (can_write w1) (ev2 ++ trace w1)) in *.
    destruct (fix_any_types_quiet fp es w2) as (ev3 & Ht3 & Ho3).
    destruct (FixLint.fix_any_types fp es w2) as [[a | e] w3] eqn:E3; cbn [snd] in Ht3;
      [| rewrite (bind_raise _ _ _ _ _ E3) in Hr; discriminate].
    rewrite (bind_ok _ _ _ _ _ E3) in *.
    assert (H2 : exists c2 ev4,
      (if a then print (T "Fixed any types in " ++ basename fp);; ret (S c1)
       else ret c1) w3 =
      (Ok c2, mkWorld (files w3) (can_write w3) (ev4 ++ trace w3)) /\
      c2 = c1 + List.length (out_lines ev4) /\ Forall fixlint_fixed_msg (out_lines ev4)).
    { destruct a.
      - exists (S c1), [EvOut (T "Fixed any types in " ++ basename fp)].
        split; [reflexivity |]. split; [cbn; lia |].
        constructor; [exists fp; right; reflexivity | constructor].
      - exists c1, []. split; [destruct w3; reflexivity |]. cbn. split; [lia | constructor]. }
    destruct H2 as (c2 & ev4 & E4 & Hc2 & Hf4).
    rewrite (bind_ok _ _ _ _ _ E4) in *.
    destruct (IH _ _ n Hr) as (ev5 & Ht5 & Hc5 & Hf5).
    exists (ev5 ++ ev4 ++ ev3 ++ ev2 ++ ev1). split.
    + rewrite Ht5. cbn [trace]. rewrite Ht3. unfold w2. cbn [trace].
      rewrite Ht1, !app_assoc. reflexivity.
    + rewrite !out_lines_app, Ho1, Ho3, !app_nil_r, !length_app. cbn [app Datatypes.length]. split; [lia |].
      apply Forall_app; split; [exact Hf5 |]. apply Forall_app; split; assumption.
Qed.

(** [fix-lint.py]'s [main], when the lint output has errors and the run
    completes: it returns 0, and the number in its last line [Fixed issues
    in n files] is the number of [Fixed ...] lines printed before it, one per
    fixer that changed a file, so a file changed by both fixers counts
    twice. *)
Theorem fixlint_main_counts_fixes (stdout stderr : text) (w : world) (r : nat)
  (Hne : FixLint.get_lint_errors stdout stderr <> [])
  (Hr : fst (FixLint.main stdout stderr w) = Ok r) :
  r = 0 /\
  exists ev,
    trace (snd (FixLint.main stdout stderr w)) =
      EvOut (NL ++ T "Fixed issues in " ++ show_nat (List.length (out_lines ev)) ++ T " files")
      :: ev ++
      EvOut (T "Found " ++ show_nat (List.length (FixLint.get_lint_errors stdout stderr))
             ++ T " errors")
      :: EvOut (T "Analyzing lint errors...") :: trace w /\
    Forall fixlint_fixed_msg (out_lines ev).
Proof.
  unfold FixLint.main in *. cbv zeta in *.
  destruct (FixLint.get_lint_errors stdout stderr) as [| e es] eqn:E; [contradiction |].
  set (w1 := mkWorld (files w) (can_write w) (EvOut (T "Analyzing lint errors...") :: trace w)).
  rewrite (bind_ok (print (T "Analyzing lint errors...")) _ w w1 tt eq_refl) in *. cbv beta in *.
  set (msg := T "Found " ++ show_nat (List.length (e :: es)) ++ T " errors") in *.
  set (w2 := mkWorld (files w1) (can_write w1) (EvOut msg :: trace w1)).
  rewrite (bind_ok (print msg) _ w1 w2 tt eq_refl) in *. cbv beta in *.
  destruct (FixLint.fix_groups (FixLint.group_errors (e :: es) []) 0 w2) as [[c | ex] w3] eqn:E3;
    [| rewrite (bind_raise _ _ _ _ _ E3) in Hr; discriminate].
  assert (Hc : fst (FixLint.fix_groups (FixLint.group_errors (e :: es) []) 0 w2) = Ok c)
    by (rewrite E3; reflexivity).
  destruct (fix_groups_count _ _ _ _ Hc) as (ev & Ht & Hn & Hf).
  rewrite E3 in Ht. cbn [snd] in Ht.
  rewrite (bind_ok _ _ _ _ _ E3) in *.
  cbn in Hr. injection Hr as <-. split; [reflexivity |].
  exists ev. split; [| exact Hf].
  unfold bind, print, emit, ret. cbn [snd trace]. rewrite Ht, Hn. reflexivity.
Qed.

Lemma fixlint_main_counts_fixes_witness :
  let w := world_of [(demo_a, demo_source)] in
  let out := demo_lint_out demo_a in
  FixLint.get_lint_errors out [] <> [] /\
  fst (FixLint.main out [] w) = Ok 0 /\
  (0 = 0 /\
   exists ev,
    trace (snd (FixLint.main out [] w)) =
      EvOut (NL ++ T "Fixed issues in " ++ show_nat (List.length (out_lines ev)) ++ T " files")
      :: ev ++
      EvOut (T "Found " ++ show_nat (List.length (FixLint.get_lint_errors out []))
             ++ T " errors")
      :: EvOut (T "Analyzing lint errors...") :: trace w /\
    Forall fixlint_fixed_msg (out_lines ev)).
Proof.
  intros w out.
  assert (Hne : FixLint.get_lint_errors out [] <> []) by (vm_compute; discriminate).
  assert (Hr : fst (FixLint.main out [] w) = Ok 0) by (vm_compute; reflexivity).
  split; [exact Hne |]. split; [exact Hr |].
  exact (fixlint_main_counts_fixes out [] w 0 Hne Hr).
Defined.
